(** * csi::http_client — request context, receive buffer and completion protocol

    A shallow embedding of [csi_http_client/http_client.h].

    Conventions of the embedding
    - [size_t] is a 64-bit unsigned integer: a [Z] in [0, 2^64), with the
      wrap-around of its arithmetic written out ([wrap_size_t]).
    - [int64_t] and [int] are [Z], with the conversions between signed and
      unsigned written out where the source converts.
    - [std::vector<uint8_t>] follows libstdc++ on an LP64 platform:
      [max_size() = PTRDIFF_MAX], length errors are results, not crashes.
    - [std::chrono::steady_clock::time_point] is its tick count in
      nanoseconds since the clock's epoch. *)

From Stdlib Require Import ZArith Lia.
From Stdlib.Strings Require Import Byte.
From stdpp Require Import base tactics option list gmap strings.

Local Open Scope Z_scope.

(** ** Machine integers *)

Definition SIZE_MAX : Z := 2 ^ 64 - 1.
Definition PTRDIFF_MAX : Z := 2 ^ 63 - 1.
Definition INT_MAX : Z := 2 ^ 31 - 1.
Definition INT64_MIN : Z := - 2 ^ 63.
Definition INT64_MAX : Z := 2 ^ 63 - 1.

(** Arithmetic on [size_t] is modulo 2^64. *)
Definition wrap_size_t (z : Z) : Z := z mod 2 ^ 64.

(** Conversion of an [int64_t] to [size_t] (the usual arithmetic conversions
    pick the unsigned type when both have the same rank). *)
Definition to_size_t (z : Z) : Z := z mod 2 ^ 64.

(** The cast [(int) x] of a [size_t]: the low 32 bits, read as two's
    complement. *)
Definition to_int (z : Z) : Z := (z + 2 ^ 31) mod 2 ^ 32 - 2 ^ 31.

(** Unsigned division; dividing by zero has no result. *)
Definition udiv (a b : Z) : option Z :=
  if b =? 0 then None else Some (a / b).

(** ** Results of operations that may throw *)

Inductive exn : Set := length_error.

Inductive result (A : Type) : Type :=
| Ok (a : A)
| Throw (e : exn).
Arguments Ok {A} a.
Arguments Throw {A} e.

(** ** [std::vector<uint8_t>] *)

(** The operations below follow libstdc++. The allocator is not part of the
    model: where an operation has to allocate new storage, [Ok] is its
    result when the allocator grants the storage; the real operation may
    throw [std::bad_alloc] there instead. What is proved of an [Ok] result
    is a statement about the real operation when it returns; success
    itself is a statement about the real operation on the paths that do
    not allocate. *)
Module vector.

Record t : Type := mk { elems : list byte; capacity : Z }.

Definition empty : t := mk [] 0.

Definition size (v : t) : Z := Z.of_nat (length (elems v)).

Definition max_size : Z := PTRDIFF_MAX.

(** Class invariant of a vector. *)
Definition wf (v : t) : Prop := size v <= capacity v <= max_size.

(** [_M_check_len(n)]: the capacity of the storage that replaces a full
    one when [n] more elements are needed. *)
Definition check_len (n : Z) (v : t) : result Z :=
  if max_size - size v <? n then Throw length_error
  else
    let len := wrap_size_t (size v + Z.max (size v) n) in
    Ok (if (len <? size v) || (max_size <? len) then max_size else len).

Definition reserve (n : Z) (v : t) : result t :=
  if max_size <? n then Throw length_error
  else if capacity v <? n then Ok (mk (elems v) n)
  else Ok v.

Definition push_back (x : byte) (v : t) : result t :=
  if size v =? capacity v then
    match check_len 1 v with
    | Ok c => Ok (mk (elems v ++ [x]) c)
    | Throw e => Throw e
    end
  else Ok (mk (elems v ++ [x]) (capacity v)).

(** [insert(end(), first, last)], [l] being the elements of the range. *)
Definition insert_end (l : list byte) (v : t) : result t :=
  let n := Z.of_nat (length l) in
  if n =? 0 then Ok v
  else if n <=? capacity v - size v then Ok (mk (elems v ++ l) (capacity v))
  else
    match check_len n v with
    | Ok c => Ok (mk (elems v ++ l) c)
    | Throw e => Throw e
    end.

(** [resize(n)]: new elements are value-initialised. *)
Definition resize (n : Z) (v : t) : result t :=
  if size v <? n then
    let k := n - size v in
    let zeros := replicate (Z.to_nat k) x00 in
    if k <=? capacity v - size v then Ok (mk (elems v ++ zeros) (capacity v))
    else
      match check_len k v with
      | Ok c => Ok (mk (elems v ++ zeros) c)
      | Throw e => Throw e
      end
  else if n <? size v then Ok (mk (take (Z.to_nat n) (elems v)) (capacity v))
  else Ok v.

(** [operator[](i)] requires [i < size()]; outside it has no defined
    result. *)
Definition index (i : Z) (v : t) : option byte :=
  if (0 <=? i) && (i <? size v) then elems v !! Z.to_nat i else None.

End vector.

(** ** Pointers handed out by the request context *)

(** A [const char*] / [const uint8_t*] returned by the accessors is either
    the address of the string literal [""] or the address of an element of
    a receive buffer's storage. *)
Inductive pointer : Set :=
| ptr_empty_literal
| ptr_buffer_elem (i : Z).

(** ** [http_client::buffer] *)

Module buffer.

Record t : Type := mk { _data : vector.t }.

(** [buffer() { _data.reserve(32*1024); }] *)
Definition new : t := mk (vector.mk [] (32 * 1024)).

Definition bytes (b : t) : list byte := vector.elems (_data b).

Definition wf (b : t) : Prop := vector.wf (_data b).

Definition lift (r : result vector.t) : result t :=
  match r with Ok v => Ok (mk v) | Throw e => Throw e end.

Definition reserve (sz : Z) (b : t) : result t :=
  lift (vector.reserve sz (_data b)).

(** [append(const uint8_t* p, size_t sz)]; [l] is the [sz] bytes at [p]. *)
Definition append (l : list byte) (b : t) : result t :=
  lift (vector.insert_end l (_data b)).

(** [append(uint8_t s)] *)
Definition append_byte (s : byte) (b : t) : result t :=
  lift (vector.push_back s (_data b)).

(** [data()] is [&_data[0]]: defined only when element 0 exists. *)
Definition data (b : t) : option pointer :=
  match vector.index 0 (_data b) with
  | Some _ => Some (ptr_buffer_elem 0)
  | None => None
  end.

Definition size (b : t) : Z := vector.size (_data b).

(** [pop_back() { _data.resize(_data.size() - 1); }] *)
Definition pop_back (b : t) : result t :=
  lift (vector.resize (wrap_size_t (vector.size (_data b) - 1)) (_data b)).

(** The operations of the class that change a buffer. *)
Inductive op : Type :=
| op_reserve (sz : Z)
| op_append (l : list byte)
| op_append_byte (s : byte)
| op_pop_back.

Definition run (o : op) (b : t) : result t :=
  match o with
  | op_reserve sz => reserve sz b
  | op_append l => append l b
  | op_append_byte s => append_byte s b
  | op_pop_back => pop_back b
  end.



End buffer.

(** ** Types of [csi_http_common] and of the libraries *)

(** [csi::http::method_t] and [csi::http::status_type] are enumerations; the
    code compares a status with integer literals, so a value is the integer
    of its enumerator. *)
Definition method_t : Set := Z.
Definition status_type : Set := Z.

(** [csi::http::header_t]: a header name and its value. *)
Definition header_t : Set := (string * string)%type.

(** [std::chrono::steady_clock::time_point], in nanoseconds since the epoch
    of the clock; a default-constructed time point is the epoch. *)
Definition time_point : Set := Z.
Definition epoch : time_point := 0.

(** What a [std::shared_ptr<call_context>] designates: the identity of a
    context object. *)
Definition ctx_id : Set := nat.

(** The identity of the function object held by a [boost::function]. *)
Definition callback : Set := nat.

(** A [CURL*] easy handle. *)
Definition easy_handle : Set := nat.

(** ** The static members of [call_context] *)

Record statics : Type := mk_statics {
  s_spinlock : bool;          (* held? *)
  s_context_count : Z         (* size_t *)
}.

(** ** [http_client::call_context] *)

Module call_context.

Record t : Type := mk {
  _method : method_t;
  _uri : string;
  _tx_headers : list string;
  _rx_headers : list header_t;
  _start_ts : time_point;
  _end_ts : time_point;
  _timeoutX : Z;
  _callback : option callback;
  _tx_stream : string;
  _rx_buffer : buffer.t;
  _http_result : status_type;
  _transport_ok : bool;
  _curl_easy : option easy_handle;
  _curl_headerlist : option (list string);
  _curl_done : bool;
  _curl_shared : option ctx_id;
  _curl_verbose : bool
}.

(** Field updates. *)
Definition with_start_ts (v : time_point) (c : t) : t :=
  mk (_method c) (_uri c) (_tx_headers c) (_rx_headers c) v (_end_ts c)
     (_timeoutX c) (_callback c) (_tx_stream c) (_rx_buffer c)
     (_http_result c) (_transport_ok c) (_curl_easy c) (_curl_headerlist c)
     (_curl_done c) (_curl_shared c) (_curl_verbose c).
Definition with_end_ts (v : time_point) (c : t) : t :=
  mk (_method c) (_uri c) (_tx_headers c) (_rx_headers c) (_start_ts c) v
     (_timeoutX c) (_callback c) (_tx_stream c) (_rx_buffer c)
     (_http_result c) (_transport_ok c) (_curl_easy c) (_curl_headerlist c)
     (_curl_done c) (_curl_shared c) (_curl_verbose c).
Definition with_callback (v : option callback) (c : t) : t :=
  mk (_method c) (_uri c) (_tx_headers c) (_rx_headers c) (_start_ts c)
     (_end_ts c) (_timeoutX c) v (_tx_stream c) (_rx_buffer c)
     (_http_result c) (_transport_ok c) (_curl_easy c) (_curl_headerlist c)
     (_curl_done c) (_curl_shared c) (_curl_verbose c).
Definition with_rx_buffer (v : buffer.t) (c : t) : t :=
  mk (_method c) (_uri c) (_tx_headers c) (_rx_headers c) (_start_ts c)
     (_end_ts c) (_timeoutX c) (_callback c) (_tx_stream c) v
     (_http_result c) (_transport_ok c) (_curl_easy c) (_curl_headerlist c)
     (_curl_done c) (_curl_shared c) (_curl_verbose c).
Definition with_http_result (v : status_type) (c : t) : t :=
  mk (_method c) (_uri c) (_tx_headers c) (_rx_headers c) (_start_ts c)
     (_end_ts c) (_timeoutX c) (_callback c) (_tx_stream c) (_rx_buffer c)
     v (_transport_ok c) (_curl_easy c) (_curl_headerlist c)
     (_curl_done c) (_curl_shared c) (_curl_verbose c).
Definition with_transport_ok (v : bool) (c : t) : t :=
  mk (_method c) (_uri c) (_tx_headers c) (_rx_headers c) (_start_ts c)
     (_end_ts c) (_timeoutX c) (_callback c) (_tx_stream c) (_rx_buffer c)
     (_http_result c) v (_curl_easy c) (_curl_headerlist c)
     (_curl_done c) (_curl_shared c) (_curl_verbose c).
Definition with_curl_done (v : bool) (c : t) : t :=
  mk (_method c) (_uri c) (_tx_headers c) (_rx_headers c) (_start_ts c)
     (_end_ts c) (_timeoutX c) (_callback c) (_tx_stream c) (_rx_buffer c)
     (_http_result c) (_transport_ok c) (_curl_easy c) (_curl_headerlist c)
     v (_curl_shared c) (_curl_verbose c).
Definition with_curl_shared (v : option ctx_id) (c : t) : t :=
  mk (_method c) (_uri c) (_tx_headers c) (_rx_headers c) (_start_ts c)
     (_end_ts c) (_timeoutX c) (_callback c) (_tx_stream c) (_rx_buffer c)
     (_http_result c) (_transport_ok c) (_curl_easy c) (_curl_headerlist c)
     (_curl_done c) v (_curl_verbose c).

(** The arguments of the constructor. *)
Record args : Type := mk_args {
  a_method : method_t;
  a_uri : string;
  a_headers : list string;
  a_timeout : Z;
  a_verbose : bool
}.

(** What the constructor takes from its environment: the value of the
    enumerator [csi::http::undefined] (declared in [csi_http.h]), the
    indeterminate content of the member [_transport_ok], which no
    initialiser sets, and the result of [curl_easy_init()], which is
    [NULL] on failure. *)
Record env : Type := mk_env {
  undefined : status_type;
  indeterminate : bool;
  curl_easy_init : option easy_handle
}.

(** The object the constructor builds. The members without an initialiser
    are default-constructed: both time points are the epoch, the callback
    and the self-reference are empty, the stream and the header list are
    empty, and the buffer is a fresh [buffer]. *)
Definition init (e : env) (a : args) : t :=
  mk (a_method a) (a_uri a) (a_headers a) [] epoch epoch (a_timeout a)
     None EmptyString buffer.new (undefined e) (indeterminate e)
     (curl_easy_init e) None false None (a_verbose a).

(** The effect of the constructor on the statics:
    [{ scoped_lock xx(s_spinlock); s_context_count++; }]. *)
Definition ctor_statics (s : statics) : statics :=
  mk_statics (s_spinlock s) (wrap_size_t (s_context_count s + 1)).

(** The effect of the destructor on the statics:
    [{ scoped_lock xx(s_spinlock); s_context_count--; }]. *)
Definition dtor_statics (s : statics) : statics :=
  mk_statics (s_spinlock s) (wrap_size_t (s_context_count s - 1)).

(** What the destructor releases after the count:
    [if (_curl_easy) curl_easy_cleanup(_curl_easy);
     if (_curl_headerlist) curl_slist_free_all(_curl_headerlist);] *)
Inductive released : Set :=
| easy_cleanup (h : easy_handle)
| slist_free_all (l : list string).

Definition dtor_releases (c : t) : list released :=
  match _curl_easy c with Some h => [easy_cleanup h] | None => [] end ++
  match _curl_headerlist c with Some l => [slist_free_all l] | None => [] end.

Definition connection_count (s : statics) : Z := s_context_count s.

Definition curl_start (h : ctx_id) (c : t) : t := with_curl_shared (Some h) c.
Definition curl_stop (c : t) : t := with_curl_shared None c.
Definition curl_handle (c : t) : option ctx_id := _curl_shared c.

(** [duration_cast] to a coarser unit truncates towards zero. *)
Definition milliseconds (c : t) : Z := Z.quot (_end_ts c - _start_ts c) 1000000.
Definition microseconds (c : t) : Z := Z.quot (_end_ts c - _start_ts c) 1000.

Definition tx_content (c : t) : string := _tx_stream c.

Definition rx_content (c : t) : option pointer :=
  if negb (buffer.size (_rx_buffer c) =? 0) then buffer.data (_rx_buffer c)
  else Some ptr_empty_literal.

Definition tx_content_length (c : t) : Z :=
  Z.of_nat (String.length (_tx_stream c)).

Definition rx_content_length (c : t) : Z := buffer.size (_rx_buffer c).

(** [auto sz = rx_content_length(); int64_t ms = milliseconds();
     return (int) (ms == 0 ? 0 : sz / ms);]
    [sz] is a [size_t], so [ms] is converted to [size_t] for the division
    and the conditional has type [size_t]. *)
Definition rx_kb_per_sec (c : t) : option Z :=
  let sz := rx_content_length c in
  let ms := milliseconds c in
  if ms =? 0 then Some (to_int 0)
  else match udiv sz (to_size_t ms) with
       | Some q => Some (to_int q)
       | None => None
       end.

Definition uri (c : t) : string := _uri c.
Definition http_result (c : t) : status_type := _http_result c.
Definition transport_result (c : t) : bool := _transport_ok c.

Definition ok (c : t) : bool :=
  _transport_ok c && (200 <=? _http_result c) && (_http_result c <? 300).

(** The byte a pointer returned by [rx_content] designates, and the C
    string that starts there: the literal [""] holds the terminator only;
    the storage of the buffer holds its bytes. *)
Definition load (c : t) (p : pointer) : option byte :=
  match p with
  | ptr_empty_literal => Some x00
  | ptr_buffer_elem i => vector.index i (buffer._data (_rx_buffer c))
  end.

(** Both time points are values a steady clock returns. *)
Definition ts_wf (c : t) : Prop :=
  0 <= _start_ts c <= INT64_MAX /\ 0 <= _end_ts c <= INT64_MAX.

End call_context.

(** [create_http_request]: the new object and the statics after its
    construction; the caller holds the only handle. *)
Definition create_http_request (e : call_context.env) (a : call_context.args)
    (s : statics) : call_context.t * statics :=
  (call_context.init e a, call_context.ctor_statics s).

(** ** The spinlock discipline around [s_context_count]

    The three places of the header that touch [s_context_count] each do so
    inside a [csi::spinlock::scoped_lock] on [s_spinlock]. To see what the
    lock buys, the increment and the decrement are split into the load and
    the store a compiler emits for a plain [size_t], and invocations running
    on different threads are interleaved instruction by instruction. *)

Module spin.

Inductive instr : Set :=
| acquire                (* scoped_lock constructor *)
| release                (* scoped_lock destructor *)
| load                   (* read s_context_count into a register *)
| store_add (d : Z).     (* write register + d to s_context_count *)

(** The routines of the header that touch the statics. *)
Inductive routine : Set := ctor | dtor | connection_count.

Definition code_of (r : routine) : list instr :=
  match r with
  | ctor => [acquire; load; store_add 1; release]
  | dtor => [acquire; load; store_add (-1); release]
  | connection_count => [acquire; load; release]
  end.

(** One invocation of a routine: the instructions left and the register. *)
Record thread : Type := mk_thread {
  routine_of : routine;
  pc : list instr;
  reg : Z
}.

Definition spawn (r : routine) : thread := mk_thread r (code_of r) 0.

Record state : Type := mk_state {
  globals : statics;
  threads : list thread
}.

Definition start (g : statics) (rs : list routine) : state :=
  mk_state g (spawn <$> rs).

(** One instruction; [None] when the thread has to spin. *)
Definition exec (i : instr) (t : thread) (g : statics)
    : option (Z * statics) :=
  match i with
  | acquire =>
      if s_spinlock g then None
      else Some (reg t, mk_statics true (s_context_count g))
  | release => Some (reg t, mk_statics false (s_context_count g))
  | load => Some (s_context_count g, g)
  | store_add d =>
      Some (reg t, mk_statics (s_spinlock g) (wrap_size_t (reg t + d)))
  end.

(** Thread [i] is scheduled for one instruction; a finished, a spinning or
    an absent thread leaves the state as it is. *)
Definition step (i : nat) (st : state) : state :=
  match threads st !! i with
  | Some t =>
      match pc t with
      | ins :: rest =>
          match exec ins t (globals st) with
          | Some (r, g) =>
              mk_state g (<[i := mk_thread (routine_of t) rest r]> (threads st))
          | None => st
          end
      | [] => st
      end
  | None => st
  end.

Definition run (sched : list nat) (st : state) : state :=
  fold_left (fun s i => step i s) sched st.

(** Every access to the count happens with the lock held, and the lock is
    released at the end. *)
Fixpoint guarded_from (held : bool) (c : list instr) : bool :=
  match c with
  | [] => negb held
  | acquire :: c' => negb held && guarded_from true c'
  | release :: c' => held && guarded_from false c'
  | load :: c' => held && guarded_from held c'
  | store_add _ :: c' => held && guarded_from held c'
  end.

Definition guarded (c : list instr) : bool := guarded_from false c.

(** What an invocation has added to the count so far: a constructor that
    has stored counts one object more, a destructor one less. *)
Definition contribution (t : thread) : Z :=
  match routine_of t, pc t with
  | ctor, ([release] | []) => 1
  | dtor, ([release] | []) => -1
  | _, _ => 0
  end.

Definition sum_over (f : thread -> Z) (ts : list thread) : Z :=
  foldr (fun t acc => f t + acc) 0 ts.

Definition total (ts : list thread) : Z := sum_over contribution ts.

(** The invocation is between its [acquire] and its [release]. *)
Definition in_critical_section (t : thread) : bool :=
  match pc t with
  | [] => false
  | _ :: _ => negb (Nat.eqb (length (pc t)) (length (code_of (routine_of t))))
  end.

Definition finished (t : thread) : bool :=
  match pc t with [] => true | _ => false end.

(** The tails of a routine's code: where an invocation can be. *)
Fixpoint tails (c : list instr) : list (list instr) :=
  c :: match c with [] => [] | _ :: c' => tails c' end.

Definition at_valid_pc (t : thread) : Prop :=
  In (pc t) (tails (code_of (routine_of t))).

(** The thread is about to store: its register holds the count it read. *)
Definition register_fresh (g : statics) (t : thread) : Prop :=
  match pc t with
  | store_add _ :: _ => reg t = s_context_count g
  | _ => True
  end.

(** The invariant of every interleaving: [holder] is the invocation that
    holds the lock, if any; [c0] is the count at the start. *)
Definition invariant (c0 : Z) (holder : option nat) (st : state) : Prop :=
  s_spinlock (globals st) = bool_decide (is_Some holder) /\
  s_context_count (globals st) = wrap_size_t (c0 + total (threads st)) /\
  forall j t, threads st !! j = Some t ->
    at_valid_pc t /\
    (in_critical_section t = true <-> holder = Some j) /\
    register_fresh (globals st) t.

(** Number of invocations of a routine among [rs]. *)
Definition invocations (r : routine) (rs : list routine) : Z :=
  Z.of_nat (length (List.filter
    (fun r' => match r, r' with
               | ctor, ctor | dtor, dtor
               | connection_count, connection_count => true
               | _, _ => false
               end) rs)).

End spin.

(** ** The life of a request context *)

(** Modelled from the spec: the steps of [http_client.cpp] that attach a
    context ([perform_async] / [_perform]) and that retire it (inside
    [check_completed]); the header declares them and defines the fields
    they write, [curl_start] and [curl_stop]. From the spec's data model
    and its section on the completion drainer: a context is "attached when
    submitted to the Engine (transport handle created, self-reference
    taken)"; the elapsed time is the "duration between the attach timestamp
    and the retirement timestamp; zero if not yet retired"; at retirement
    the drainer reads "overall transport success/failure and, if applicable,
    the final response status code", does "record end timestamp; set
    transport success flag and status code on the context" and then
    "release the context's self-reference". The flag [_curl_done] of the
    header marks the retired state. *)
Module lifecycle.

Record outcome : Type := mk_outcome {
  transport_success : bool;
  response_status : option status_type
}.

(** Modelled from the spec: what [_perform] does to the context it
    attaches: the continuation is stored, the self-reference is taken
    ([curl_start]) and the attach timestamp is read from the clock. The
    spec has the elapsed time "zero if not yet retired", and the accessors
    of the header compute it as the end time point minus the start time
    point; so the attach timestamp goes to both time points, and
    retirement then moves the end time point on. *)
Definition attach (self : ctx_id) (cb : callback) (now : time_point)
    (c : call_context.t) : call_context.t :=
  call_context.with_end_ts now
    (call_context.with_start_ts now
       (call_context.curl_start self
          (call_context.with_callback (Some cb) c))).

(** Modelled from the spec: what [check_completed] records on a finished
    context: the status code if there is one, the end time point, the
    retired state and the transport success flag. *)
Definition finalize (now : time_point) (o : outcome)
    (c : call_context.t) : call_context.t :=
  let c1 :=
    match response_status o with
    | Some st => call_context.with_http_result st c
    | None => c
    end in
  call_context.with_transport_ok (transport_success o)
    (call_context.with_curl_done true
       (call_context.with_end_ts now c1)).

(** Modelled from the spec: retirement, the record above followed by the
    release of the self-reference ([curl_stop]). *)
Definition retire (now : time_point) (o : outcome)
    (c : call_context.t) : call_context.t :=
  call_context.curl_stop (finalize now o c).

(** Modelled from the spec: what [_write_cb] does to the context: body
    bytes delivered by the transport engine are appended to the receive
    buffer. *)
Definition receive (l : list byte) (c : call_context.t)
    : result call_context.t :=
  match buffer.append l (call_context._rx_buffer c) with
  | Ok b => Ok (call_context.with_rx_buffer b c)
  | Throw e => Throw e
  end.




End lifecycle.

(** ** The engine *)

(** Modelled from the spec: the member functions of [http_client] defined in
    [http_client.cpp] ([perform_async], [_perform], [check_completed],
    [close], the socket and timer callbacks); the header only declares
    them. The model follows the spec's sections on the data model, the
    socket registry, the timer pump, the completion drainer and the engine.
    - The transport engine is "an opaque multiplexing transport": the set of
      attached native handles and "a lazy sequence of finished native
      handles; finite per call, drained to empty". A native handle and its
      context are in "one-to-one mapping", so a handle is a [ctx_id].
    - Everything runs "serially on that one thread", so an operation is one
      step on the state of the world. [perform_async] stands for the post
      and for the attach the reactor then performs ([_perform]).
    - An operation has no next state ([None]) when it cannot take place in
      the world it is tried in, or when it meets what the spec calls a
      "bridge invariant violation [...]: fatal".
    - [shutdown] "cancels all pending timers, closes all registered sockets,
      forbids further submissions"; in-flight contexts "are allowed to
      drain" (the choice the spec leaves open).
    - Shared ownership: a context object lives as long as a caller holds a
      handle or the context holds its self-reference; when the last of them
      goes, the destructor of the header runs. *)
Module engine.

Import lifecycle.

(** A live context object and the number of handles callers hold. *)
Record cell : Type := mk_cell {
  obj : call_context.t;
  owners : nat
}.

Inductive interest : Set := none | read | write | both.

Inductive event : Type :=
| ev_created (h : ctx_id)
| ev_attach (h : ctx_id)
| ev_detach (h : ctx_id)
| ev_continuation (h : ctx_id)
| ev_destroyed (h : ctx_id) (rel : list call_context.released)
| ev_socket_closed (fd : Z).

Record world : Type := mk_world {
  heap : gmap ctx_id cell;              (* live call_context objects *)
  next_id : ctx_id;                     (* identities not yet given out *)
  globals : statics;
  clock : time_point;                   (* steady_clock::now() *)
  te_attached : list ctx_id;            (* handles attached to the transport *)
  te_finished : list (ctx_id * outcome);(* finished, not yet drained *)
  socket_map : gmap Z interest;         (* the socket registry *)
  deferred : list Z;                    (* wrappers whose destruction is posted *)
  timer : option Z;                     (* pending single-shot delay *)
  keepalive : bool;                     (* keep-alive timer armed *)
  accepting : bool;                     (* submissions allowed *)
  trace : list event
}.

Definition initial (t0 : time_point) : world :=
  mk_world ∅ 0%nat (mk_statics false 0) t0 [] [] ∅ [] None true true [].

Definition with_heap (m : gmap ctx_id cell) (w : world) : world :=
  mk_world m (next_id w) (globals w) (clock w) (te_attached w)
    (te_finished w) (socket_map w) (deferred w) (timer w) (keepalive w)
    (accepting w) (trace w).

Definition with_globals (g : statics) (w : world) : world :=
  mk_world (heap w) (next_id w) g (clock w) (te_attached w)
    (te_finished w) (socket_map w) (deferred w) (timer w) (keepalive w)
    (accepting w) (trace w).

Definition with_te (a : list ctx_id) (f : list (ctx_id * outcome))
    (w : world) : world :=
  mk_world (heap w) (next_id w) (globals w) (clock w) a f
    (socket_map w) (deferred w) (timer w) (keepalive w)
    (accepting w) (trace w).

Definition with_sockets (m : gmap Z interest) (d : list Z)
    (w : world) : world :=
  mk_world (heap w) (next_id w) (globals w) (clock w) (te_attached w)
    (te_finished w) m d (timer w) (keepalive w) (accepting w) (trace w).

Definition with_timer (t : option Z) (w : world) : world :=
  mk_world (heap w) (next_id w) (globals w) (clock w) (te_attached w)
    (te_finished w) (socket_map w) (deferred w) t (keepalive w)
    (accepting w) (trace w).

Definition log (es : list event) (w : world) : world :=
  mk_world (heap w) (next_id w) (globals w) (clock w) (te_attached w)
    (te_finished w) (socket_map w) (deferred w) (timer w) (keepalive w)
    (accepting w) (trace w ++ es).

(** *** Ownership *)

(** [new call_context(...)] wrapped in a handle, as [create_http_request]
    does. *)
Definition create (e : call_context.env) (a : call_context.args)
    (w : world) : option world :=
  let (c, g) := create_http_request e a (globals w) in
  Some (mk_world (<[next_id w := mk_cell c 1]> (heap w)) (S (next_id w)) g
          (clock w) (te_attached w) (te_finished w) (socket_map w)
          (deferred w) (timer w) (keepalive w) (accepting w)
          (trace w ++ [ev_created (next_id w)])).

(** The destructor runs: the object leaves the heap. *)
Definition destroy (h : ctx_id) (c : call_context.t) (w : world) : world :=
  log [ev_destroyed h (call_context.dtor_releases c)]
    (with_globals (call_context.dtor_statics (globals w))
       (with_heap (delete h (heap w)) w)).

(** A caller copies a handle it holds. *)
Definition share (h : ctx_id) (w : world) : option world :=
  match heap w !! h with
  | Some c =>
      match owners c with
      | O => None
      | S _ => Some (with_heap (<[h := mk_cell (obj c) (S (owners c))]> (heap w)) w)
      end
  | None => None
  end.

(** A caller drops a handle it holds. *)
Definition drop (h : ctx_id) (w : world) : option world :=
  match heap w !! h with
  | Some c =>
      match owners c, call_context.curl_handle (obj c) with
      | O, _ => None
      | S O, None => Some (destroy h (obj c) w)
      | S n, _ => Some (with_heap (<[h := mk_cell (obj c) n]> (heap w)) w)
      end
  | None => None
  end.

(** *** Submission *)

(** Modelled from the spec: [perform_async] and [_perform] of
    [http_client.cpp] (the spec's [submit]). The caller holds a handle; the
    engine must still accept submissions; a context that is attached or
    retired is refused ("double-attach of a context" is fatal, a retired
    context "is never resubmitted"). The continuation is stored, the
    self-reference and the attach time point are taken, and the handle is
    attached to the transport engine. *)
Definition perform_async (h : ctx_id) (cb : callback) (w : world)
    : option world :=
  if accepting w then
    match heap w !! h with
    | Some c =>
        match owners c, call_context.curl_handle (obj c),
              call_context._curl_done (obj c) with
        | S _, None, false =>
            Some (log [ev_attach h]
                    (with_te (te_attached w ++ [h]) (te_finished w)
                       (with_heap
                          (<[h := mk_cell (attach h cb (clock w) (obj c))
                                          (owners c)]> (heap w)) w)))
        | _, _, _ => None
        end
    | None => None
    end
  else None.

(** *** What the transport engine does on its own *)

Definition in_flight (h : ctx_id) (w : world) : bool :=
  bool_decide (h ∈ te_attached w) && negb (bool_decide (h ∈ (te_finished w).*1)).

(** Modelled from the spec: [_write_cb] of [http_client.cpp]. Body bytes
    arrive for an exchange in flight and go to its receive buffer. *)
Definition write_cb (h : ctx_id) (l : list byte) (w : world) : option world :=
  if in_flight h w then
    match heap w !! h with
    | Some c =>
        match receive l (obj c) with
        | Ok c' => Some (with_heap (<[h := mk_cell c' (owners c)]> (heap w)) w)
        | Throw _ => None
        end
    | None => None
    end
  else None.

(** Modelled from the spec: the transport engine, inside one of its entry
    points, finishes an exchange in flight ("success, transport failure, or
    timeout") and queues its handle and outcome. *)
Definition finish (h : ctx_id) (o : outcome) (w : world) : option world :=
  if in_flight h w then
    Some (with_te (te_attached w) (te_finished w ++ [(h, o)]) w)
  else None.

(** Time passes. *)
Definition advance (d : Z) (w : world) : option world :=
  if (0 <=? d) && (clock w + d <=? INT64_MAX) then
    Some (mk_world (heap w) (next_id w) (globals w) (clock w + d)
            (te_attached w) (te_finished w) (socket_map w) (deferred w)
            (timer w) (keepalive w) (accepting w) (trace w))
  else None.

(** *** The completion drainer *)

(** Modelled from the spec: the transport engine's
    [next_finished() -> optional<(native_handle, outcome_code)>]. *)
Definition next_finished (w : world)
    : option ((ctx_id * outcome) * world) :=
  match te_finished w with
  | [] => None
  | x :: q => Some (x, with_te (te_attached w) q w)
  end.

(** Modelled from the spec: the body of the loop of [check_completed] in
    [http_client.cpp], steps 2 to 6 of the spec's algorithm for one finished
    handle: resolve the context, read the outcome, record the end time
    point and the result, detach the handle, release the self-reference,
    invoke the continuation. The drainer holds a handle of its own while
    the continuation runs; when it lets go and no caller holds one, the
    object is destroyed. *)
Definition retire_one (h : ctx_id) (o : outcome) (w : world) : option world :=
  match heap w !! h with
  | Some c =>
      let c' := retire (clock w) o (obj c) in
      let w1 :=
        log [ev_detach h; ev_continuation h]
          (with_te (filter (fun x => x <> h) (te_attached w)) (te_finished w) w) in
      match owners c with
      | O => Some (destroy h c' w1)
      | S _ => Some (with_heap (<[h := mk_cell c' (owners c)]> (heap w1)) w1)
      end
  | None => None
  end.

(** Modelled from the spec: the loop of [check_completed], steps 1 and 7:
    "continue until the finished-handle sequence is empty". [fuel] bounds
    the number of rounds; a loop that runs out of it has no result. *)
Fixpoint drain_loop (fuel : nat) (w : world) : option world :=
  match next_finished w with
  | None => Some w
  | Some ((h, o), w') =>
      match fuel with
      | O => None
      | S fuel' =>
          match retire_one h o w' with
          | Some w'' => drain_loop fuel' w''
          | None => None
          end
      end
  end.

(** Modelled from the spec: [check_completed] of [http_client.cpp] (the
    spec's [drain()]). One round per handle in the sequence is all the loop
    can need, since retiring a handle queues none. *)
Definition check_completed (w : world) : option world :=
  drain_loop (length (te_finished w)) w.

(** *** The socket registry *)

(** Modelled from the spec: [opensocket_cb], [sock_cb], [closesocket_cb] and
    [_asio_closesocket_cb] of [http_client.cpp] (the spec's [open],
    [set_interest] and [close] of the socket registry). A directive for a
    descriptor the registry does not know is fatal. *)
Definition opensocket_cb (fd : Z) (w : world) : option world :=
  match socket_map w !! fd with
  | None => Some (with_sockets (<[fd := none]> (socket_map w)) (deferred w) w)
  | Some _ => None
  end.

Definition sock_cb (fd : Z) (m : interest) (w : world) : option world :=
  match socket_map w !! fd with
  | Some _ => Some (with_sockets (<[fd := m]> (socket_map w)) (deferred w) w)
  | None => None
  end.

(** The entry goes at once; the wrapper's destruction is posted. *)
Definition closesocket_cb (fd : Z) (w : world) : option world :=
  match socket_map w !! fd with
  | Some _ =>
      Some (with_sockets (delete fd (socket_map w)) (deferred w ++ [fd]) w)
  | None => None
  end.

Definition asio_closesocket_cb (w : world) : option world :=
  Some (log (ev_socket_closed <$> deferred w)
          (with_sockets (socket_map w) [] w)).

(** *** Reactor events; each ends with a drain *)

(** Modelled from the spec: [socket_rx_cb], [socket_tx_cb], [multi_timer_cb],
    [timer_cb] and [keepalivetimer_cb] of [http_client.cpp]. A readiness
    event is delivered for a registered descriptor that is waited on in
    that direction; what the transport engine finishes meanwhile is a
    [finish] of its own; "drain() is invoked after every reactor-delivered
    event". *)
Definition socket_rx_cb (fd : Z) (w : world) : option world :=
  match socket_map w !! fd with
  | Some read | Some both => check_completed w
  | Some none | Some write | None => None
  end.

Definition socket_tx_cb (fd : Z) (w : world) : option world :=
  match socket_map w !! fd with
  | Some write | Some both => check_completed w
  | Some none | Some read | None => None
  end.

Definition multi_timer_cb (d : option Z) (w : world) : option world :=
  Some (with_timer d w).

Definition timer_cb (w : world) : option world :=
  match timer w with
  | Some _ => check_completed (with_timer None w)
  | None => None
  end.

Definition keepalivetimer_cb (w : world) : option world :=
  if keepalive w then check_completed w else None.

(** *** Shutdown *)

(** Modelled from the spec: [close] of [http_client.cpp] (the spec's
    [shutdown()]): it "cancels all pending timers, closes all registered
    sockets, forbids further submissions"; contexts in flight are left to
    drain. *)
Definition close (w : world) : world :=
  mk_world (heap w) (next_id w) (globals w) (clock w) (te_attached w)
    (te_finished w) ∅ (deferred w) None false false
    (trace w ++ (ev_socket_closed <$> (map_to_list (socket_map w)).*1)).

(** *** Runs *)

Inductive op : Type :=
| op_create (e : call_context.env) (a : call_context.args)
| op_share (h : ctx_id)
| op_drop (h : ctx_id)
| op_perform_async (h : ctx_id) (cb : callback)
| op_write_cb (h : ctx_id) (l : list byte)
| op_finish (h : ctx_id) (o : outcome)
| op_advance (d : Z)
| op_drain
| op_opensocket_cb (fd : Z)
| op_sock_cb (fd : Z) (m : interest)
| op_closesocket_cb (fd : Z)
| op_asio_closesocket_cb
| op_socket_rx_cb (fd : Z)
| op_socket_tx_cb (fd : Z)
| op_multi_timer_cb (d : option Z)
| op_timer_cb
| op_keepalivetimer_cb
| op_shutdown.

Definition step (o : op) (w : world) : option world :=
  match o with
  | op_create e a => create e a w
  | op_share h => share h w
  | op_drop h => drop h w
  | op_perform_async h cb => perform_async h cb w
  | op_write_cb h l => write_cb h l w
  | op_finish h o => finish h o w
  | op_advance d => advance d w
  | op_drain => check_completed w
  | op_opensocket_cb fd => opensocket_cb fd w
  | op_sock_cb fd m => sock_cb fd m w
  | op_closesocket_cb fd => closesocket_cb fd w
  | op_asio_closesocket_cb => asio_closesocket_cb w
  | op_socket_rx_cb fd => socket_rx_cb fd w
  | op_socket_tx_cb fd => socket_tx_cb fd w
  | op_multi_timer_cb d => multi_timer_cb d w
  | op_timer_cb => timer_cb w
  | op_keepalivetimer_cb => keepalivetimer_cb w
  | op_shutdown => Some (close w)
  end.


Fixpoint run (ops : list op) (w : world) : option world :=
  match ops with
  | [] => Some w
  | o :: ops' =>
      match step o w with
      | Some w' => run ops' w'
      | None => None
      end
  end.

(** *** Continuations that act *)

(** Modelled from the spec: the continuation "is invoked exactly once, on
    the reactor thread", that is inside the loop of [check_completed], and
    what it does there comes before the loop turns to the next finished
    handle. A [behaviour] gives, for each context, the operations its
    continuation performs when it is invoked. The drainer holds a handle of
    its own while the continuation runs: it is counted among the owners
    before the context is retired and dropped when the continuation has
    returned. [retire_one] is the case of a continuation that does
    nothing. *)
Definition behaviour : Type := ctx_id -> list op.

Definition retire_with (k : behaviour) (h : ctx_id) (o : outcome)
    (w : world) : option world :=
  match heap w !! h with
  | Some c =>
      match retire_one h o
              (with_heap (<[h := mk_cell (obj c) (S (owners c))]> (heap w)) w) with
      | Some w1 => run (k h ++ [op_drop h]) w1
      | None => None
      end
  | None => None
  end.

Fixpoint drain_loop_with (k : behaviour) (fuel : nat) (w : world)
    : option world :=
  match next_finished w with
  | None => Some w
  | Some ((h, o), w') =>
      match fuel with
      | O => None
      | S fuel' =>
          match retire_with k h o w' with
          | Some w'' => drain_loop_with k fuel' w''
          | None => None
          end
      end
  end.

Definition check_completed_with (k : behaviour) (w : world) : option world :=
  drain_loop_with k (length (te_finished w)) w.

Inductive reachable : world -> Prop :=
| reachable_initial t0 :
    0 <= t0 <= INT64_MAX -> reachable (initial t0)
| reachable_step o w w' :
    reachable w -> step o w = Some w' -> reachable w'.

(** The world with the live-context counter blanked out. *)
Definition erase_count (w : world) : world :=
  with_globals (mk_statics (s_spinlock (globals w)) 0) w.

(** *** Reading a trace *)

Definition event_eqb_continuation (h : ctx_id) (e : event) : bool :=
  match e with ev_continuation h' => Nat.eqb h h' | _ => false end.
Definition event_eqb_detach (h : ctx_id) (e : event) : bool :=
  match e with ev_detach h' => Nat.eqb h h' | _ => false end.
Definition event_eqb_attach (h : ctx_id) (e : event) : bool :=
  match e with ev_attach h' => Nat.eqb h h' | _ => false end.
Definition event_eqb_destroyed (h : ctx_id) (e : event) : bool :=
  match e with ev_destroyed h' _ => Nat.eqb h h' | _ => false end.
Definition event_eqb_socket_closed (e : event) : bool :=
  match e with ev_socket_closed _ => true | _ => false end.

Definition occurrences (p : event -> bool) (tr : list event) : nat :=
  length (List.filter p tr).

Definition continuations (h : ctx_id) (tr : list event) : nat :=
  occurrences (event_eqb_continuation h) tr.
Definition detaches (h : ctx_id) (tr : list event) : nat :=
  occurrences (event_eqb_detach h) tr.
Definition attaches (h : ctx_id) (tr : list event) : nat :=
  occurrences (event_eqb_attach h) tr.
Definition destructions (h : ctx_id) (tr : list event) : nat :=
  occurrences (event_eqb_destroyed h) tr.

(** Every continuation of [h] in the trace comes after a detach of [h]. *)
Definition detached_before_continuation (h : ctx_id) (tr : list event) : Prop :=
  forall i, tr !! i = Some (ev_continuation h) ->
    exists j, (j < i)%nat /\ tr !! j = Some (ev_detach h).

(** Events that are not about the attachment or the end of a context. *)
Definition anonymous (e : event) : Prop :=
  match e with
  | ev_created _ | ev_socket_closed _ => True
  | _ => False
  end.

(** *** What holds in every reachable world *)

(** The events of a context agree with the state it is in. *)
Definition ledger_ok (w : world) (h : ctx_id) : Prop :=
  continuations h (trace w) = detaches h (trace w) /\
  detached_before_continuation h (trace w) /\
  match heap w !! h with
  | Some c =>
      destructions h (trace w) = 0%nat /\
      match call_context.curl_handle (obj c),
            call_context._curl_done (obj c) with
      | Some _, _ =>
          attaches h (trace w) = 1%nat /\ detaches h (trace w) = 0%nat
      | None, false =>
          attaches h (trace w) = 0%nat /\ detaches h (trace w) = 0%nat
      | None, true =>
          attaches h (trace w) = 1%nat /\ detaches h (trace w) = 1%nat
      end
  | None =>
      detaches h (trace w) = attaches h (trace w) /\
      (attaches h (trace w) <= 1)%nat /\
      if decide (h < next_id w)%nat
      then destructions h (trace w) = 1%nat
      else destructions h (trace w) = 0%nat /\ attaches h (trace w) = 0%nat
  end.

(** The invariant, with the ownership clause waived for the context
    [skip]: between its retirement and the moment the drainer lets go of
    it, a context may be held by the drainer alone. *)
Record wf_world_except (skip : option ctx_id) (w : world) : Prop := mk_wf {
  wf_lock : s_spinlock (globals w) = false;
  wf_count :
    s_context_count (globals w) = wrap_size_t (Z.of_nat (size (heap w)));
  wf_clock : 0 <= clock w <= INT64_MAX;
  wf_fresh : forall h, is_Some (heap w !! h) -> (h < next_id w)%nat;
  wf_owned : forall h c, skip <> Some h -> heap w !! h = Some c ->
    owners c = 0%nat -> is_Some (call_context.curl_handle (obj c));
  wf_self : forall h c, heap w !! h = Some c ->
    match call_context.curl_handle (obj c) with
    | Some h' =>
        h' = h /\ h ∈ te_attached w /\ call_context._curl_done (obj c) = false
    | None => h ∉ te_attached w
    end;
  wf_attached : forall h, h ∈ te_attached w -> is_Some (heap w !! h);
  wf_finished : forall h, h ∈ (te_finished w).*1 -> h ∈ te_attached w;
  wf_finished_nodup : NoDup (te_finished w).*1;
  wf_ledger : forall h, ledger_ok w h
}.

Definition wf_world (w : world) : Prop := wf_world_except None w.

End engine.

(** ** Concrete objects used to exercise the statements *)

Module samples.

Definition env0 : call_context.env := call_context.mk_env 0 false (Some 7%nat).

Definition args0 : call_context.args :=
  call_context.mk_args 1 "http://localhost/" [] 5000 false.

(** A context just built. *)
Definition fresh : call_context.t := call_context.init env0 args0.

(** The same context, attached when the clock reads 2 ms. *)
Definition in_flight : call_context.t :=
  lifecycle.attach 0%nat 0%nat 2000000 fresh.

(** Four body bytes have arrived. *)
Definition receiving : call_context.t :=
  match lifecycle.receive [x6f; x6b; x0d; x0a] in_flight with
  | Ok c => c
  | Throw _ => in_flight
  end.

(** Retired with status 200 when the clock reads 6 ms. *)
Definition done : call_context.t :=
  lifecycle.retire 6000000 (lifecycle.mk_outcome true (Some 200)) receiving.

(** A buffer that holds one byte. *)
Definition one_byte : buffer.t := buffer.mk (vector.mk [x01] (32 * 1024)).

Definition no_byte : buffer.t := buffer.mk (vector.mk [] (32 * 1024)).

(** A run of the engine: one context is created, submitted at 2 ms,
    receives two bytes and finishes at 6 ms, while a socket is being
    watched. *)
Definition ops_until_finished : list engine.op :=
  [engine.op_create env0 args0;
   engine.op_perform_async 0%nat 0%nat;
   engine.op_opensocket_cb 5;
   engine.op_sock_cb 5 engine.read;
   engine.op_write_cb 0%nat [x6f; x6b];
   engine.op_advance 4000000;
   engine.op_finish 0%nat (lifecycle.mk_outcome true (Some 200))].

Definition world_finished : engine.world :=
  default (engine.initial 2000000)
    (engine.run ops_until_finished (engine.initial 2000000)).

(** The same world after a drain. *)
Definition world_drained : engine.world :=
  default world_finished (engine.check_completed world_finished).

(** The context of that run once it is retired, as the heap holds it. *)
Definition done_in_world : call_context.t :=
  match engine.heap world_drained !! 0%nat with
  | Some c => engine.obj c
  | None => fresh
  end.

(** Three invocations on three threads and one way to schedule them. *)
Definition routines : list spin.routine :=
  [spin.ctor; spin.ctor; spin.dtor].

Definition schedule : list nat :=
  [0; 1; 0; 2; 0; 0; 2; 1; 1; 2; 1; 2; 2; 1; 1; 1; 1]%nat.

End samples.

(** ** Runs of buffer operations *)

Module buffer_runs.

(** The operations of a list, one after the other; the first one that
    throws ends the run. *)
Fixpoint run_all (os : list buffer.op) (b : buffer.t) : result buffer.t :=
  match os with
  | [] => Ok b
  | o :: os' =>
      match buffer.run o b with
      | Ok b' => run_all os' b'
      | Throw e => Throw e
      end
  end.

(** The bytes an operation hands to the buffer. *)
Definition appended (o : buffer.op) : list byte :=
  match o with
  | buffer.op_append l => l
  | buffer.op_append_byte s => [s]
  | buffer.op_reserve _ => []
  | buffer.op_pop_back => []
  end.

Definition is_pop_back (o : buffer.op) : bool :=
  match o with buffer.op_pop_back => true | _ => false end.

(** No [pop_back] among the operations. *)
Definition growing (os : list buffer.op) : Prop :=
  Forall (fun o => is_pop_back o = false) os.

(** Every [reserve] among the operations asks for at most [bound]. *)
Definition reserves_at_most (bound : Z) (os : list buffer.op) : Prop :=
  Forall (fun o => match o with
                   | buffer.op_reserve sz => sz <= bound
                   | _ => True
                   end) os.

(** The capacity of the storage behind a buffer. *)
Definition capacity (b : buffer.t) : Z := vector.capacity (buffer._data b).

(** The operation needs no more than the storage that is there: a [reserve]
    asks for at most the capacity, an [append] stays within it. *)
Definition in_place (o : buffer.op) (b : buffer.t) : Prop :=
  match o with
  | buffer.op_reserve sz => sz <= capacity b
  | _ => buffer.size b + Z.of_nat (length (appended o)) <= capacity b
  end.

(** A body that arrives in three pieces, the last one empty. *)
Definition pieces : list buffer.op :=
  [buffer.op_reserve 16; buffer.op_append [x68; x69];
   buffer.op_append_byte x21; buffer.op_append []].

End buffer_runs.

(** ** More concrete objects *)

Module more_samples.

Definition env1 : call_context.env := call_context.mk_env 0 false (Some 9%nat).

(** A constructor whose [curl_easy_init()] fails and whose uninitialised
    flag happens to be set. *)
Definition env_no_curl : call_context.env := call_context.mk_env 0 true None.

Definition args1 : call_context.args :=
  call_context.mk_args 1 "http://localhost/status" [] 1000 false.

Definition built : call_context.t := call_context.init env1 args1.

(** A context that has received four bytes, with given start and end time
    points. *)
Definition timed (t0 t1 : time_point) : call_context.t :=
  call_context.with_end_ts t1
    (call_context.with_start_ts t0
       (call_context.with_rx_buffer
          (buffer.mk (vector.mk [x6f; x6b; x0d; x0a] (32 * 1024))) built)).

(** Ended half a millisecond after the start. *)
Definition quick : call_context.t := timed 2000000 2500000.

(** Ended four milliseconds after the start. *)
Definition slow : call_context.t := timed 2000000 6000000.

(** The end time point lies before the start time point. *)
Definition pending : call_context.t := timed 2000000 epoch.

(** A buffer that holds one byte. *)
Definition one : buffer.t := buffer.mk (vector.mk [x01] (32 * 1024)).

(** The statics when the counter is at the top of its range. *)
Definition statics_full : statics := mk_statics false SIZE_MAX.

End more_samples.

(** ** Progress under the spinlock *)

Module spin_progress.

(** Instructions the invocations still have to execute. *)
Definition remaining (ts : list spin.thread) : Z :=
  spin.sum_over (fun t => Z.of_nat (length (spin.pc t))) ts.

Definition all_finished (st : spin.state) : Prop :=
  Forall (fun t => spin.finished t = true) (spin.threads st).

(** Some invocation is between its [acquire] and its [release]. *)
Definition someone_inside (st : spin.state) : Prop :=
  exists k t, spin.threads st !! k = Some t /\
              spin.in_critical_section t = true.

(** Invocation [i] executes an instruction when it is scheduled. *)
Definition can_move (i : nat) (st : spin.state) : Prop :=
  exists t ins r,
    spin.threads st !! i = Some t /\
    spin.threads (spin.step i st) !! i
      = Some (spin.mk_thread (spin.routine_of t) (tail (spin.pc t)) r) /\
    spin.pc t = ins :: tail (spin.pc t).

(** Four invocations on four threads. *)
Definition calls : list spin.routine :=
  [spin.ctor; spin.connection_count; spin.dtor; spin.ctor].

End spin_progress.

(** ** A drain whose continuations act *)

Module drain_samples.





End drain_samples.

(** * Properties *)

(** ** Machine integers *)

Lemma wrap_size_t_small z : 0 <= z <= SIZE_MAX -> wrap_size_t z = z.
Proof. unfold wrap_size_t, SIZE_MAX. intros H. apply Z.mod_small. lia. Qed.

Lemma wrap_size_t_minus_one : wrap_size_t (0 - 1) = SIZE_MAX.
Proof. reflexivity. Qed.

Lemma to_int_small z : 0 <= z <= INT_MAX -> to_int z = z.
Proof.
  unfold to_int, INT_MAX. intros H.
  rewrite Z.mod_small by lia. lia.
Qed.

Lemma to_size_t_pos z : 0 <= z <= INT64_MAX -> to_size_t z = z.
Proof. unfold to_size_t, INT64_MAX. intros H. apply Z.mod_small. lia. Qed.


(** ** The vector and the buffer *)

Lemma buffer_new_reserves :
  vector.reserve (32 * 1024) vector.empty = Ok (buffer._data buffer.new).
Proof. reflexivity. Qed.

Lemma vector_size_nonneg v : 0 <= vector.size v.
Proof. unfold vector.size. lia. Qed.

Lemma vector_check_len_ok n v :
  vector.wf v -> 0 <= n -> vector.size v + n <= vector.max_size ->
  exists c, vector.check_len n v = Ok c /\
            vector.size v + n <= c <= vector.max_size.
Proof.
  intros [Hs Hc] Hn Hfit. unfold vector.check_len.
  pose proof (vector_size_nonneg v) as H0.
  destruct (Z.ltb_spec (vector.max_size - vector.size v) n) as [?|_]; [lia|].
  eexists. split; [reflexivity|].
  assert (Hw : wrap_size_t (vector.size v + Z.max (vector.size v) n)
               = vector.size v + Z.max (vector.size v) n).
  { apply wrap_size_t_small. unfold SIZE_MAX.
    unfold vector.max_size, PTRDIFF_MAX in *. lia. }
  rewrite Hw.
  destruct (Z.ltb_spec (vector.size v + Z.max (vector.size v) n) (vector.size v));
    destruct (Z.ltb_spec vector.max_size (vector.size v + Z.max (vector.size v) n));
    simpl; lia.
Qed.

Lemma vector_check_len_throw n v :
  vector.max_size - vector.size v < n ->
  vector.check_len n v = Throw length_error.
Proof.
  intros H. unfold vector.check_len.
  destruct (Z.ltb_spec (vector.max_size - vector.size v) n); [reflexivity|lia].
Qed.

Lemma vector_size_app l c k :
  vector.size (vector.mk (l ++ k) c) = vector.size (vector.mk l c) + Z.of_nat (length k).
Proof. unfold vector.size. simpl. rewrite length_app. lia. Qed.

Lemma vector_check_len_inv n v c :
  vector.wf v -> 0 <= n -> vector.check_len n v = Ok c ->
  vector.size v + n <= c <= vector.max_size.
Proof.
  intros Hwf Hn Hc.
  destruct (Z.le_gt_cases (vector.size v + n) vector.max_size) as [Hfit|Hbig].
  - destruct (vector_check_len_ok n v Hwf Hn Hfit) as (c' & Hc' & Hb).
    congruence.
  - rewrite vector_check_len_throw in Hc by lia. discriminate.
Qed.

Lemma vector_reserve_spec n v :
  vector.wf v ->
  (n <= vector.max_size -> exists v', vector.reserve n v = Ok v') /\
  (forall v', vector.reserve n v = Ok v' ->
     vector.elems v' = vector.elems v /\ vector.wf v').
Proof.
  intros Hwf. unfold vector.reserve. split.
  - intros Hn. destruct (Z.ltb_spec vector.max_size n); [lia|].
    destruct (vector.capacity v <? n); eauto.
  - intros v'. destruct (Z.ltb_spec vector.max_size n); [discriminate|].
    destruct (Z.ltb_spec (vector.capacity v) n); intros [= <-]; [|done].
    split; [done|]. destruct Hwf. unfold vector.wf, vector.size in *.
    simpl. lia.
Qed.

Lemma vector_push_back_spec x v :
  vector.wf v ->
  (vector.size v + 1 <= vector.max_size ->
     exists v', vector.push_back x v = Ok v') /\
  (forall v', vector.push_back x v = Ok v' ->
     vector.elems v' = vector.elems v ++ [x] /\ vector.wf v').
Proof.
  intros Hwf. unfold vector.push_back. split.
  - intros Hfit. destruct (vector.size v =? vector.capacity v); [|eauto].
    destruct (vector_check_len_ok 1 v Hwf ltac:(lia) Hfit) as (c & -> & _).
    eauto.
  - intros v'. destruct (Z.eqb_spec (vector.size v) (vector.capacity v)) as [He|Hne].
    + destruct (vector.check_len 1 v) as [c|] eqn:Hc; intros [= <-].
      split; [done|].
      apply vector_check_len_inv in Hc; [|done|lia].
      unfold vector.wf. rewrite vector_size_app. simpl.
      unfold vector.size in *. simpl. lia.
    + intros [= <-]. split; [done|].
      destruct Hwf. unfold vector.wf. rewrite vector_size_app. simpl.
      unfold vector.size in *. simpl. lia.
Qed.

Lemma vector_insert_end_spec l v :
  vector.wf v ->
  (vector.size v + Z.of_nat (length l) <= vector.max_size ->
     exists v', vector.insert_end l v = Ok v') /\
  (forall v', vector.insert_end l v = Ok v' ->
     vector.elems v' = vector.elems v ++ l /\ vector.wf v').
Proof.
  intros Hwf. unfold vector.insert_end. split.
  - intros Hfit. destruct (Z.of_nat (length l) =? 0); [eauto|].
    destruct (Z.of_nat (length l) <=? vector.capacity v - vector.size v); [eauto|].
    destruct (vector_check_len_ok (Z.of_nat (length l)) v Hwf ltac:(lia) Hfit)
      as (c & -> & _).
    eauto.
  - intros v'. destruct (Z.eqb_spec (Z.of_nat (length l)) 0) as [He|Hne].
    { intros [= <-]. split; [|done].
      destruct l; [by rewrite app_nil_r|simpl in He; lia]. }
    destruct (Z.leb_spec (Z.of_nat (length l)) (vector.capacity v - vector.size v)).
    + intros [= <-]. split; [done|].
      destruct Hwf. unfold vector.wf. rewrite vector_size_app. simpl.
      unfold vector.size in *. simpl. lia.
    + destruct (vector.check_len _ v) as [c|] eqn:Hc; intros [= <-].
      split; [done|].
      apply vector_check_len_inv in Hc; [|done|lia].
      unfold vector.wf. rewrite vector_size_app. simpl.
      unfold vector.size in *. simpl. lia.
Qed.

Lemma vector_resize_shrink n v :
  0 <= n < vector.size v ->
  vector.resize n v
  = Ok (vector.mk (take (Z.to_nat n) (vector.elems v)) (vector.capacity v)).
Proof.
  intros H. unfold vector.resize.
  destruct (Z.ltb_spec (vector.size v) n); [lia|].
  destruct (Z.ltb_spec n (vector.size v)); [done|lia].
Qed.

Lemma vector_resize_too_long n v :
  vector.wf v -> vector.max_size < n ->
  vector.resize n v = Throw length_error.
Proof.
  intros [Hs Hc] Hn. unfold vector.resize.
  pose proof (vector_size_nonneg v).
  destruct (Z.ltb_spec (vector.size v) n); [|lia].
  destruct (Z.leb_spec (n - vector.size v) (vector.capacity v - vector.size v)); [lia|].
  rewrite vector_check_len_throw by lia. done.
Qed.

Lemma buffer_pop_back_nonempty b :
  buffer.wf b -> 1 <= buffer.size b ->
  buffer.pop_back b
  = Ok (buffer.mk (vector.mk (take (Z.to_nat (buffer.size b - 1)) (buffer.bytes b))
                             (vector.capacity (buffer._data b)))).
Proof.
  intros [Hs Hc] Hn. unfold buffer.pop_back, buffer.size in *.
  rewrite wrap_size_t_small
    by (unfold SIZE_MAX; unfold vector.max_size, PTRDIFF_MAX in *; lia).
  rewrite vector_resize_shrink by lia. done.
Qed.

Lemma buffer_pop_back_empty b :
  buffer.wf b -> buffer.size b = 0 ->
  buffer.pop_back b = Throw length_error.
Proof.
  intros Hwf Hn. unfold buffer.pop_back, buffer.size in *.
  rewrite Hn, wrap_size_t_minus_one.
  rewrite vector_resize_too_long; [done|done|].
  by vm_compute.
Qed.

Lemma buffer_size_take b n :
  0 <= n <= buffer.size b ->
  Z.of_nat (length (take (Z.to_nat n) (buffer.bytes b))) = n.
Proof.
  unfold buffer.size, vector.size, buffer.bytes. intros H.
  rewrite length_take. lia.
Qed.

(** C10. [buffer::pop_back] needs a non-empty buffer. On a buffer of size
    [n >= 1] it succeeds and leaves a buffer of size [n - 1] that holds the
    first [n - 1] bytes unchanged. On an empty buffer the computation
    [size() - 1] wraps around to [SIZE_MAX], which no vector can hold: the
    [resize] has no result but a length error. *)
Theorem pop_back_requires_nonempty (b : buffer.t) :
  buffer.wf b ->
  (1 <= buffer.size b ->
     exists b', buffer.pop_back b = Ok b' /\
       buffer.size b' = buffer.size b - 1 /\
       buffer.bytes b' = take (Z.to_nat (buffer.size b - 1)) (buffer.bytes b) /\
       (forall i : nat, (Z.of_nat i < buffer.size b - 1) ->
          buffer.bytes b' !! i = buffer.bytes b !! i)) /\
  (buffer.size b = 0 ->
     wrap_size_t (buffer.size b - 1) = SIZE_MAX /\
     vector.max_size < SIZE_MAX /\
     buffer.pop_back b = Throw length_error).
Proof.
  intros Hwf. split.
  - intros Hn. eexists. split; [by apply buffer_pop_back_nonempty|].
    split; [|split].
    + unfold buffer.size at 1, vector.size. simpl.
      apply buffer_size_take. lia.
    + done.
    + intros i Hi. unfold buffer.bytes at 1. simpl.
      apply lookup_take_lt. lia.
  - intros Hn. rewrite Hn. split; [done|]. split; [by vm_compute|].
    by apply buffer_pop_back_empty.
Qed.

Lemma pop_back_requires_nonempty_witness :
  buffer.wf samples.one_byte /\
  (exists b', buffer.pop_back samples.one_byte = Ok b' /\ buffer.size b' = 0) /\
  buffer.wf samples.no_byte /\
  buffer.pop_back samples.no_byte = Throw length_error.
Proof.
  assert (H1 : buffer.wf samples.one_byte) by (by vm_compute).
  assert (H0 : buffer.wf samples.no_byte) by (by vm_compute).
  split; [exact H1|]. split.
  - destruct (pop_back_requires_nonempty samples.one_byte H1) as [Hpos _].
    destruct Hpos as (b' & Hb' & Hsz & _); [by vm_compute|].
    exists b'. split; [exact Hb'|]. rewrite Hsz. reflexivity.
  - split; [exact H0|].
    destruct (pop_back_requires_nonempty samples.no_byte H0) as [_ Hzero].
    destruct Hzero as (_ & _ & Hthrow); [reflexivity|]. exact Hthrow.
Defined.

(** C3, as stated, fails: [pop_back] is an operation of the buffer type, and
    on a buffer that holds one byte it leaves an empty buffer, so that the
    size goes down and the old content is no prefix of the new one. *)
Lemma buffer_pop_back_shrinks :
  buffer.wf samples.one_byte /\
  buffer.run buffer.op_pop_back samples.one_byte = Ok samples.no_byte /\
  buffer.size samples.no_byte < buffer.size samples.one_byte /\
  ~ buffer.bytes samples.one_byte `prefix_of` buffer.bytes samples.no_byte.
Proof.
  split; [by vm_compute|]. split; [reflexivity|]. split; [reflexivity|].
  intros [k Hk]. discriminate Hk.
Qed.

Lemma buffer_run_in_place_ok o b :
  buffer.wf b -> o <> buffer.op_pop_back -> buffer_runs.in_place o b ->
  exists b', buffer.run o b = Ok b'.
Proof.
  intros [Hs Hc] Hnp Hin. unfold buffer_runs.in_place, buffer_runs.capacity in Hin.
  pose proof (vector_size_nonneg (buffer._data b)) as H0.
  unfold buffer.size in Hin.
  destruct o as [sz|l|s|]; [| | |done]; simpl in *.
  - unfold buffer.reserve, vector.reserve.
    destruct (Z.ltb_spec vector.max_size sz); [lia|].
    destruct (Z.ltb_spec (vector.capacity (buffer._data b)) sz); [lia|].
    simpl. eauto.
  - unfold buffer.append, vector.insert_end.
    destruct (Z.of_nat (length l) =? 0); [simpl; eauto|].
    destruct (Z.leb_spec (Z.of_nat (length l))
                (vector.capacity (buffer._data b) - vector.size (buffer._data b)));
      [simpl; eauto|lia].
  - unfold buffer.append_byte, vector.push_back.
    destruct (Z.eqb_spec (vector.size (buffer._data b))
                (vector.capacity (buffer._data b))); [lia|].
    simpl. eauto.
Qed.

(** C3, amended. Every operation of the buffer type other than [pop_back]
    ([reserve] and the two [append]s; [data] and [size] are [const]) keeps
    the content as a prefix and never makes the size smaller; it succeeds
    at least when it needs no more than the storage that is there.
    [pop_back] removes the last byte: what is left is a prefix of the old
    content, one byte shorter. *)
Theorem buffer_append_only_but_pop_back (o : buffer.op) (b : buffer.t) :
  buffer.wf b ->
  (o <> buffer.op_pop_back ->
     (buffer_runs.in_place o b -> exists b', buffer.run o b = Ok b') /\
     (forall b', buffer.run o b = Ok b' ->
        buffer.bytes b `prefix_of` buffer.bytes b' /\
        buffer.size b <= buffer.size b' /\
        buffer.wf b')) /\
  (o = buffer.op_pop_back ->
     (1 <= buffer.size b -> exists b', buffer.run o b = Ok b') /\
     (forall b', buffer.run o b = Ok b' ->
        buffer.bytes b' `prefix_of` buffer.bytes b /\
        buffer.size b' = buffer.size b - 1)).
Proof.
  intros Hwf. split.
  - intros Hne. split; [intros Hin; by apply buffer_run_in_place_ok|].
    destruct o as [sz|l|s|]; [| | |done]; simpl; intros b'.
    + destruct (vector_reserve_spec sz (buffer._data b) Hwf) as [_ Hinv].
      unfold buffer.reserve.
      destruct (vector.reserve sz (buffer._data b)) as [v'|] eqn:Hr;
        simpl; intros [= <-].
      destruct (Hinv v' eq_refl) as [He Hw].
      unfold buffer.bytes, buffer.size, vector.size, buffer.wf. simpl.
      rewrite He. done.
    + destruct (vector_insert_end_spec l (buffer._data b) Hwf) as [_ Hinv].
      unfold buffer.append.
      destruct (vector.insert_end l (buffer._data b)) as [v'|] eqn:Hr;
        simpl; intros [= <-].
      destruct (Hinv v' eq_refl) as [He Hw].
      unfold buffer.bytes, buffer.size, vector.size, buffer.wf. simpl.
      rewrite He, length_app. split; [by apply prefix_app_r|]. split; [lia|done].
    + destruct (vector_push_back_spec s (buffer._data b) Hwf) as [_ Hinv].
      unfold buffer.append_byte.
      destruct (vector.push_back s (buffer._data b)) as [v'|] eqn:Hr;
        simpl; intros [= <-].
      destruct (Hinv v' eq_refl) as [He Hw].
      unfold buffer.bytes, buffer.size, vector.size, buffer.wf. simpl.
      rewrite He, length_app. split; [by apply prefix_app_r|]. split; [lia|done].
  - intros ->. simpl. split.
    + intros Hn. rewrite buffer_pop_back_nonempty by done. eauto.
    + intros b' Hb'.
      destruct (Z.le_gt_cases 1 (buffer.size b)) as [Hn|Hn].
      * rewrite buffer_pop_back_nonempty in Hb' by done.
        injection Hb' as <-. split.
        -- unfold buffer.bytes at 1. simpl. apply prefix_take.
        -- unfold buffer.size at 1, vector.size. simpl.
           apply buffer_size_take. lia.
      * rewrite buffer_pop_back_empty in Hb'; [discriminate|done|].
        pose proof (vector_size_nonneg (buffer._data b)).
        unfold buffer.size in *. lia.
Qed.

Lemma buffer_append_only_but_pop_back_witness :
  buffer.wf samples.one_byte /\
  buffer.op_append [x02; x03] <> buffer.op_pop_back /\
  buffer_runs.in_place (buffer.op_append [x02; x03]) samples.one_byte /\
  exists b', buffer.run (buffer.op_append [x02; x03]) samples.one_byte = Ok b' /\
             buffer.bytes samples.one_byte `prefix_of` buffer.bytes b'.
Proof.
  assert (Hw : buffer.wf samples.one_byte) by (by vm_compute).
  assert (Hne : buffer.op_append [x02; x03] <> buffer.op_pop_back) by discriminate.
  assert (Hf : buffer_runs.in_place (buffer.op_append [x02; x03])
                 samples.one_byte)
    by (by vm_compute).
  split; [exact Hw|]. split; [exact Hne|]. split; [exact Hf|].
  destruct (buffer_append_only_but_pop_back
              (buffer.op_append [x02; x03]) samples.one_byte Hw) as [Hgrow _].
  destruct (Hgrow Hne) as [Hex Hinv].
  destruct (Hex Hf) as [b' Hb']. exists b'. split; [exact Hb'|].
  exact (proj1 (Hinv b' Hb')).
Defined.

(** ** The accessors of the request context *)

(** C1. [ok()] (the spec's [is_successful()]) is true exactly when the
    transport-level success flag is set and the response status is at least
    200 and strictly less than 300. *)
Theorem ok_iff_transport_ok_and_2xx (c : call_context.t) :
  call_context.ok c = true <->
  call_context._transport_ok c = true /\
  200 <= call_context._http_result c < 300.
Proof.
  unfold call_context.ok.
  rewrite !andb_true_iff, Z.leb_le, Z.ltb_lt. tauto.
Qed.

(** C8. When the receive buffer is empty, [rx_content()] returns the address
    of the empty string literal (whose first character is the terminator)
    and does not evaluate [data()], which has no defined result on an empty
    buffer; when the buffer is not empty it returns the address of the
    buffer's first byte. *)
Theorem rx_content_guards_empty_buffer (c : call_context.t) :
  (buffer.size (call_context._rx_buffer c) = 0 ->
     buffer.data (call_context._rx_buffer c) = None /\
     call_context.rx_content c = Some ptr_empty_literal /\
     call_context.load c ptr_empty_literal = Some x00) /\
  (buffer.size (call_context._rx_buffer c) <> 0 ->
     exists x,
       call_context.rx_content c = Some (ptr_buffer_elem 0) /\
       call_context.load c (ptr_buffer_elem 0) = Some x /\
       buffer.bytes (call_context._rx_buffer c) !! 0%nat = Some x).
Proof.
  unfold call_context.rx_content, buffer.data, call_context.load,
    buffer.size, buffer.bytes, vector.index.
  set (v := buffer._data (call_context._rx_buffer c)).
  split.
  - intros Hz. rewrite Hz. simpl. done.
  - intros Hnz. pose proof (vector_size_nonneg v) as H0.
    destruct (Z.eqb_spec (vector.size v) 0) as [?|_]; [done|].
    destruct (Z.ltb_spec 0 (vector.size v)) as [Hlt|?]; [|lia].
    simpl.
    destruct (vector.elems v) as [|x l] eqn:He.
    { unfold vector.size in Hlt. rewrite He in Hlt. simpl in Hlt. lia. }
    exists x. done.
Qed.

Lemma rx_content_guards_empty_buffer_witness :
  buffer.size (call_context._rx_buffer samples.fresh) = 0 /\
  call_context.rx_content samples.fresh = Some ptr_empty_literal /\
  buffer.size (call_context._rx_buffer samples.receiving) <> 0 /\
  call_context.rx_content samples.receiving = Some (ptr_buffer_elem 0) /\
  call_context.load samples.receiving (ptr_buffer_elem 0) = Some x6f.
Proof.
  assert (Hz : buffer.size (call_context._rx_buffer samples.fresh) = 0)
    by reflexivity.
  assert (Hnz : buffer.size (call_context._rx_buffer samples.receiving) <> 0)
    by (by vm_compute).
  split; [exact Hz|]. split.
  { exact (proj1 (proj2
      (proj1 (rx_content_guards_empty_buffer samples.fresh) Hz))). }
  split; [exact Hnz|].
  destruct (proj2 (rx_content_guards_empty_buffer samples.receiving) Hnz)
    as (x & Hp & Hl & Hx).
  split; [exact Hp|]. rewrite Hl, <- Hx. reflexivity.
Defined.

Lemma milliseconds_in_range (c : call_context.t) :
  call_context.ts_wf c ->
  INT64_MIN <= call_context.milliseconds c <= INT64_MAX.
Proof.
  unfold call_context.ts_wf, call_context.milliseconds, INT64_MIN, INT64_MAX.
  intros [[? ?] [? ?]].
  Z.to_euclidean_division_equations. lia.
Qed.




(** ** Elapsed time along the life of a context *)





(** ** The live-context counter under interleaving *)

Lemma sum_over_insert f ts i t t' :
  ts !! i = Some t ->
  spin.sum_over f (<[i := t']> ts) = spin.sum_over f ts - f t + f t'.
Proof.
  revert i. induction ts as [|x ts IH]; intros [|i] Hi; simpl in *;
    try discriminate.
  - injection Hi as ->. lia.
  - rewrite (IH i Hi). lia.
Qed.

Lemma wrap_size_t_add_l a d :
  wrap_size_t (wrap_size_t a + d) = wrap_size_t (a + d).
Proof. unfold wrap_size_t. by rewrite Zplus_mod_idemp_l. Qed.

Lemma spin_store_in_critical_section t d rest :
  spin.at_valid_pc t -> spin.pc t = spin.store_add d :: rest ->
  spin.in_critical_section t = true.
Proof.
  unfold spin.at_valid_pc, spin.in_critical_section.
  destruct t as [r pc rg]. simpl. intros Hv ->.
  destruct r; simpl in Hv; intuition (try discriminate);
    match goal with H : _ = _ :: _ |- _ => injection H as <- <- end; done.
Qed.

(** Threads other than the one that moved keep their part of the
    invariant, as long as the count did not change or the mover held the
    lock. *)
Lemma spin_others_kept (g g' : statics) (holder holder' : option nat)
    (ts : list spin.thread) (i : nat) :
  (forall j t, ts !! j = Some t ->
     spin.at_valid_pc t /\
     (spin.in_critical_section t = true <-> holder = Some j) /\
     spin.register_fresh g t) ->
  (forall j, j <> i -> holder = Some j <-> holder' = Some j) ->
  s_context_count g' = s_context_count g \/ holder = Some i ->
  forall j t, j <> i -> ts !! j = Some t ->
    spin.at_valid_pc t /\
    (spin.in_critical_section t = true <-> holder' = Some j) /\
    spin.register_fresh g' t.
Proof.
  intros Hall Hh Hc j t Hji Hj.
  destruct (Hall j t Hj) as (Hv & Hcs & Hr).
  split; [done|]. split; [by rewrite Hcs; apply Hh|].
  unfold spin.register_fresh in *.
  destruct (spin.pc t) as [|[| | |d] rest] eqn:Hpc; try done.
  destruct Hc as [->|Hi]; [done|].
  pose proof (spin_store_in_critical_section t d rest Hv Hpc) as Hin.
  apply Hcs in Hin. congruence.
Qed.

Lemma spin_step_invariant c0 holder st i :
  spin.invariant c0 holder st ->
  exists holder', spin.invariant c0 holder' (spin.step i st).
Proof.
  intros (Hlock & Hcount & Hall). unfold spin.step.
  destruct (spin.threads st !! i) as [t|] eqn:Hi;
    [|by exists holder].
  destruct (Hall i t Hi) as (Hv & Hcs & Hr).
  destruct st as [[lk cnt] ts]. destruct t as [r pc rg].
  unfold spin.at_valid_pc, spin.in_critical_section, spin.register_fresh in Hv, Hcs, Hr.
  simpl in *.
  assert (Hfree : lk = false -> holder = None).
  { intros ->. destruct holder; [|done].
    symmetry in Hlock. rewrite bool_decide_eq_false in Hlock.
    destruct Hlock. by eexists. }
  assert (Hlen : (i < length ts)%nat) by (by eapply lookup_lt_Some).
  destruct r; simpl in Hv;
    repeat (destruct Hv as [Hv|Hv]; [subst pc|]); try done; simpl in *.
  all: try (by exists holder).
  all: try (destruct lk; [by exists holder|]; specialize (Hfree eq_refl); subst holder;
    exists (Some i); split; [done|]; split;
    [ simpl; unfold spin.total in *; rewrite (sum_over_insert _ _ _ _ _ Hi); simpl;
      rewrite Hcount; f_equal; unfold spin.contribution; simpl; lia
    | intros j t' Hj; simpl in Hj; destruct (decide (j = i)) as [->|Hne];
      [ rewrite list_lookup_insert_eq in Hj by done; injection Hj as <-;
        unfold spin.at_valid_pc, spin.in_critical_section, spin.register_fresh;
        simpl; intuition
      | rewrite list_lookup_insert_ne in Hj by done;
        eapply (spin_others_kept (mk_statics false cnt)); eauto;
        intros j' ?; split; intros [=]; congruence ] ]).
  all: assert (Hh : holder = Some i) by (by apply Hcs); subst holder.
  all: try (exists (Some i); split; [done|]; split;
    [ simpl; unfold spin.total in *; rewrite (sum_over_insert _ _ _ _ _ Hi); simpl;
      rewrite ?Hr, ?wrap_size_t_add_l, Hcount, ?wrap_size_t_add_l; f_equal;
      unfold spin.contribution; simpl; lia
    | intros j t' Hj; simpl in Hj; destruct (decide (j = i)) as [->|Hne];
      [ rewrite list_lookup_insert_eq in Hj by done; injection Hj as <-;
        unfold spin.at_valid_pc, spin.in_critical_section, spin.register_fresh;
        simpl; intuition
      | rewrite list_lookup_insert_ne in Hj by done;
        eapply (spin_others_kept (mk_statics lk cnt)); eauto ] ]).
  all: exists None; split; [done|]; split;
    [ simpl; unfold spin.total in *; rewrite (sum_over_insert _ _ _ _ _ Hi); simpl;
      rewrite Hcount; f_equal; unfold spin.contribution; simpl; lia
    | intros j t' Hj; simpl in Hj; destruct (decide (j = i)) as [->|Hne];
      [ rewrite list_lookup_insert_eq in Hj by done; injection Hj as <-;
        unfold spin.at_valid_pc, spin.in_critical_section, spin.register_fresh;
        simpl; intuition; discriminate
      | rewrite list_lookup_insert_ne in Hj by done;
        eapply (spin_others_kept (mk_statics lk cnt)); eauto;
        intros j' ?; split; intros [=]; congruence ] ].
Qed.

Lemma spin_run_invariant c0 holder st sched :
  spin.invariant c0 holder st ->
  exists holder', spin.invariant c0 holder' (spin.run sched st).
Proof.
  revert holder st. induction sched as [|i sched IH]; intros holder st Hinv.
  - by exists holder.
  - simpl. destruct (spin_step_invariant c0 holder st i Hinv) as [h' Hstep].
    exact (IH h' _ Hstep).
Qed.

Lemma spin_total_start rs : spin.total (spin.spawn <$> rs) = 0.
Proof.
  unfold spin.total. induction rs as [|r rs IH]; [done|].
  rewrite fmap_cons.
  change (spin.contribution (spin.spawn r)
          + spin.sum_over spin.contribution (spin.spawn <$> rs) = 0).
  rewrite IH. by destruct r.
Qed.

Lemma spin_start_invariant c0 rs :
  0 <= c0 <= SIZE_MAX ->
  spin.invariant c0 None (spin.start (mk_statics false c0) rs).
Proof.
  intros Hc. split; [done|]. split.
  - simpl. rewrite spin_total_start, Z.add_0_r. by rewrite wrap_size_t_small.
  - intros j t Hj. simpl in Hj.
    apply list_lookup_fmap_Some in Hj as (r & -> & _).
    unfold spin.at_valid_pc, spin.in_critical_section, spin.register_fresh.
    destruct r; simpl; intuition; discriminate.
Qed.

Lemma spin_step_routines i st :
  spin.routine_of <$> spin.threads (spin.step i st)
  = spin.routine_of <$> spin.threads st.
Proof.
  unfold spin.step.
  destruct (spin.threads st !! i) as [t|] eqn:Hi; [|done].
  destruct (spin.pc t) as [|ins rest]; [done|].
  destruct (spin.exec ins t (spin.globals st)) as [[r g]|]; [|done].
  simpl. rewrite list_fmap_insert. simpl.
  apply list_insert_id. by rewrite list_lookup_fmap, Hi.
Qed.

Lemma spin_run_routines sched st :
  spin.routine_of <$> spin.threads (spin.run sched st)
  = spin.routine_of <$> spin.threads st.
Proof.
  revert st. induction sched as [|i sched IH]; intros st; [done|].
  simpl. by rewrite IH, spin_step_routines.
Qed.

Lemma spin_invocations_cons r r' rs :
  spin.invocations r (r' :: rs)
  = (match r, r' with
     | spin.ctor, spin.ctor | spin.dtor, spin.dtor
     | spin.connection_count, spin.connection_count => 1
     | _, _ => 0
     end) + spin.invocations r rs.
Proof.
  unfold spin.invocations.
  destruct r, r'; cbn [List.filter length]; lia.
Qed.

Lemma spin_total_finished ts :
  (forall t, t ∈ ts -> spin.finished t = true) ->
  spin.total ts
  = spin.invocations spin.ctor (spin.routine_of <$> ts)
    - spin.invocations spin.dtor (spin.routine_of <$> ts).
Proof.
  unfold spin.total.
  induction ts as [|t ts IH]; intros Hfin; [done|].
  rewrite fmap_cons, !spin_invocations_cons.
  change (spin.sum_over spin.contribution (t :: ts))
    with (spin.contribution t + spin.sum_over spin.contribution ts).
  rewrite IH by (intros t' Ht'; apply Hfin; by right).
  assert (Hf : spin.finished t = true) by (apply Hfin; by left).
  destruct t as [r pc rg]. unfold spin.finished in Hf. simpl in Hf.
  destruct pc; [|discriminate].
  destruct r; unfold spin.contribution; cbn [spin.routine_of spin.pc]; lia.
Qed.

Lemma spin_ctor_alone g :
  s_spinlock g = false ->
  spin.run [0; 0; 0; 0]%nat (spin.start g [spin.ctor])
  = spin.mk_state (call_context.ctor_statics g)
      [spin.mk_thread spin.ctor [] (s_context_count g)].
Proof. destruct g as [lk cnt]. simpl. by intros ->. Qed.

Lemma spin_dtor_alone g :
  s_spinlock g = false ->
  spin.run [0; 0; 0; 0]%nat (spin.start g [spin.dtor])
  = spin.mk_state (call_context.dtor_statics g)
      [spin.mk_thread spin.dtor [] (s_context_count g)].
Proof. destruct g as [lk cnt]. simpl. intros ->. reflexivity. Qed.

Lemma spin_connection_count_alone g :
  s_spinlock g = false ->
  spin.run [0; 0; 0]%nat (spin.start g [spin.connection_count])
  = spin.mk_state g
      [spin.mk_thread spin.connection_count [] (call_context.connection_count g)].
Proof. destruct g as [lk cnt]. simpl. by intros ->. Qed.

(** ** Traces *)

Lemma occurrences_app p tr es :
  engine.occurrences p (tr ++ es)
  = (engine.occurrences p tr + engine.occurrences p es)%nat.
Proof. unfold engine.occurrences. by rewrite List.filter_app, length_app. Qed.

Lemma occurrences_none p es :
  Forall (fun e => p e = false) es -> engine.occurrences p es = 0%nat.
Proof.
  unfold engine.occurrences. induction 1 as [|e es He _ IH]; [done|].
  simpl. by rewrite He.
Qed.

Lemma detached_before_app_other h tr es :
  engine.detached_before_continuation h tr ->
  Forall (fun e => engine.event_eqb_continuation h e = false) es ->
  engine.detached_before_continuation h (tr ++ es).
Proof.
  intros Hd Hes i Hi.
  destruct (decide (i < length tr)%nat) as [Hlt|Hge].
  - rewrite lookup_app_l in Hi by done.
    destruct (Hd i Hi) as (j & Hj & Hjd). exists j. split; [done|].
    rewrite lookup_app_l by lia. done.
  - rewrite lookup_app_r in Hi by lia.
    apply list_elem_of_lookup_2 in Hi.
    rewrite Forall_forall in Hes. apply Hes in Hi.
    simpl in Hi. by rewrite Nat.eqb_refl in Hi.
Qed.

Lemma detached_before_app_retire h h' tr :
  engine.detached_before_continuation h tr ->
  engine.detached_before_continuation h
    (tr ++ [engine.ev_detach h'; engine.ev_continuation h']).
Proof.
  intros Hd i Hi.
  destruct (decide (i < length tr)%nat) as [Hlt|Hge].
  - rewrite lookup_app_l in Hi by done.
    destruct (Hd i Hi) as (j & Hj & Hjd). exists j. split; [done|].
    rewrite lookup_app_l by lia. done.
  - rewrite lookup_app_r in Hi by lia.
    destruct (i - length tr)%nat as [|[|k]] eqn:Hk; simpl in Hi; try done.
    injection Hi as ->. exists (length tr). split; [lia|].
    rewrite lookup_app_r by lia. by rewrite Nat.sub_diag.
Qed.

Lemma anonymous_socket_closed fds :
  Forall engine.anonymous (engine.ev_socket_closed <$> fds).
Proof. induction fds; constructor; done. Qed.

Lemma anonymous_occurrences h es :
  Forall engine.anonymous es ->
  engine.continuations h es = 0%nat /\ engine.detaches h es = 0%nat /\
  engine.attaches h es = 0%nat /\ engine.destructions h es = 0%nat.
Proof.
  intros Hes.
  unfold engine.continuations, engine.detaches, engine.attaches,
    engine.destructions.
  repeat split; apply occurrences_none;
    (eapply Forall_impl; [exact Hes|]); by intros [].
Qed.

Lemma anonymous_not_continuation h es :
  Forall engine.anonymous es ->
  Forall (fun e => engine.event_eqb_continuation h e = false) es.
Proof. intros Hes. eapply Forall_impl; [exact Hes|]. by intros []. Qed.

Lemma tally_app h tr es :
  engine.continuations h (tr ++ es)
    = (engine.continuations h tr + engine.continuations h es)%nat /\
  engine.detaches h (tr ++ es)
    = (engine.detaches h tr + engine.detaches h es)%nat /\
  engine.attaches h (tr ++ es)
    = (engine.attaches h tr + engine.attaches h es)%nat /\
  engine.destructions h (tr ++ es)
    = (engine.destructions h tr + engine.destructions h es)%nat.
Proof. repeat split; apply occurrences_app. Qed.

Lemma tally_app_anonymous h tr es :
  Forall engine.anonymous es ->
  engine.continuations h (tr ++ es) = engine.continuations h tr /\
  engine.detaches h (tr ++ es) = engine.detaches h tr /\
  engine.attaches h (tr ++ es) = engine.attaches h tr /\
  engine.destructions h (tr ++ es) = engine.destructions h tr.
Proof.
  intros Hes.
  destruct (tally_app h tr es) as (-> & -> & -> & ->).
  destruct (anonymous_occurrences h es Hes) as (-> & -> & -> & ->).
  by rewrite !Nat.add_0_r.
Qed.

(** ** The invariant of the engine *)

Lemma ledger_frame w w' h es :
  engine.ledger_ok w h ->
  engine.heap w' !! h = engine.heap w !! h ->
  engine.next_id w' = engine.next_id w ->
  engine.trace w' = engine.trace w ++ es ->
  Forall engine.anonymous es ->
  engine.ledger_ok w' h.
Proof.
  unfold engine.ledger_ok. intros (Hcd & Hdb & Hst) Hh Hn Ht Hes.
  rewrite Hh, Hn, Ht.
  destruct (tally_app_anonymous h (engine.trace w) es Hes) as (-> & -> & -> & ->).
  split; [done|]. split; [|done].
  apply detached_before_app_other; [done|].
  by apply anonymous_not_continuation.
Qed.

Lemma wf_frame skip w w' es :
  engine.wf_world_except skip w ->
  engine.heap w' = engine.heap w ->
  engine.next_id w' = engine.next_id w ->
  engine.globals w' = engine.globals w ->
  0 <= engine.clock w' <= INT64_MAX ->
  engine.te_attached w' = engine.te_attached w ->
  engine.te_finished w' = engine.te_finished w ->
  engine.trace w' = engine.trace w ++ es ->
  Forall engine.anonymous es ->
  engine.wf_world_except skip w'.
Proof.
  intros [] Hh Hn Hg Hc Ha Hf Ht Hes.
  constructor; rewrite ?Hh, ?Hn, ?Hg, ?Ha, ?Hf; try done.
  intros h. eapply ledger_frame; eauto. by rewrite Hh.
Qed.

Lemma wf_weaken skip w :
  engine.wf_world w -> engine.wf_world_except skip w.
Proof.
  intros []. constructor; try done.
  intros h c _. by apply wf_owned.
Qed.

(** A cell is replaced by one in the same phase. *)
Lemma wf_update_cell skip w h c c' :
  engine.wf_world_except skip w ->
  engine.heap w !! h = Some c ->
  call_context.curl_handle (engine.obj c') = call_context.curl_handle (engine.obj c) ->
  call_context._curl_done (engine.obj c') = call_context._curl_done (engine.obj c) ->
  (skip <> Some h -> engine.owners c' = 0%nat ->
     is_Some (call_context.curl_handle (engine.obj c'))) ->
  engine.wf_world_except skip (engine.with_heap (<[h := c']> (engine.heap w)) w).
Proof.
  intros [] Hh Hs Hd Ho. constructor; simpl; try done.
  - rewrite map_size_insert_Some by eauto. done.
  - intros h' [x Hx]. destruct (decide (h' = h)) as [->|Hne].
    + apply wf_fresh. eauto.
    + rewrite lookup_insert_ne in Hx by done. apply wf_fresh. eauto.
  - intros h' x Hsk Hx. destruct (decide (h' = h)) as [->|Hne].
    + rewrite lookup_insert_eq in Hx. injection Hx as <-. by apply Ho.
    + rewrite lookup_insert_ne in Hx by done. by eapply wf_owned.
  - intros h' x Hx. destruct (decide (h' = h)) as [->|Hne].
    + rewrite lookup_insert_eq in Hx. injection Hx as <-.
      rewrite Hs, Hd. by apply wf_self.
    + rewrite lookup_insert_ne in Hx by done. by apply wf_self.
  - intros h' Hin. destruct (decide (h' = h)) as [->|Hne].
    + rewrite lookup_insert_eq. eauto.
    + rewrite lookup_insert_ne by done. by apply wf_attached.
  - intros h'. specialize (wf_ledger h'). unfold engine.ledger_ok in *. simpl.
    destruct (decide (h' = h)) as [->|Hne].
    + rewrite lookup_insert_eq. rewrite Hh in wf_ledger. by rewrite Hs, Hd.
    + by rewrite lookup_insert_ne.
Qed.

Lemma wrap_size_t_succ n :
  wrap_size_t (wrap_size_t (Z.of_nat n) + 1) = wrap_size_t (Z.of_nat (S n)).
Proof. rewrite wrap_size_t_add_l. f_equal. lia. Qed.

Lemma wrap_size_t_pred n :
  (0 < n)%nat ->
  wrap_size_t (wrap_size_t (Z.of_nat n) - 1) = wrap_size_t (Z.of_nat (pred n)).
Proof.
  intros Hn. change (wrap_size_t (Z.of_nat n) - 1)
    with (wrap_size_t (Z.of_nat n) + (-1)).
  rewrite wrap_size_t_add_l. f_equal. lia.
Qed.

Lemma wf_strengthen h w :
  engine.wf_world_except (Some h) w ->
  (forall c, engine.heap w !! h = Some c -> engine.owners c = 0%nat ->
     is_Some (call_context.curl_handle (engine.obj c))) ->
  engine.wf_world w.
Proof.
  intros [] Hh. constructor; try done.
  intros h' c _ Hc Ho. destruct (decide (h' = h)) as [->|Hne].
  - by eapply Hh.
  - eapply wf_owned; [|done|done]. congruence.
Qed.

Lemma wf_create e a w w' :
  engine.wf_world w -> engine.create e a w = Some w' -> engine.wf_world w'.
Proof.
  intros [] [= <-].
  assert (Hnone : engine.heap w !! engine.next_id w = None).
  { destruct (engine.heap w !! engine.next_id w) eqn:Hx; [|done].
    assert (engine.next_id w < engine.next_id w)%nat by (apply wf_fresh; eauto).
    lia. }
  constructor; simpl; try done.
  - rewrite map_size_insert_None by done. rewrite wf_count.
    apply wrap_size_t_succ.
  - intros h [x Hx]. destruct (decide (h = engine.next_id w)) as [->|Hne]; [lia|].
    rewrite lookup_insert_ne in Hx by done.
    assert (h < engine.next_id w)%nat by (apply wf_fresh; eauto). lia.
  - intros h c _ Hc. destruct (decide (h = engine.next_id w)) as [->|Hne].
    + rewrite lookup_insert_eq in Hc. by injection Hc as <-.
    + rewrite lookup_insert_ne in Hc by done. by eapply wf_owned.
  - intros h c Hc. destruct (decide (h = engine.next_id w)) as [->|Hne].
    + rewrite lookup_insert_eq in Hc. injection Hc as <-. simpl.
      intros Hin. apply wf_attached in Hin. rewrite Hnone in Hin.
      by destruct Hin.
    + rewrite lookup_insert_ne in Hc by done. by apply wf_self.
  - intros h Hin. destruct (decide (h = engine.next_id w)) as [->|Hne].
    + rewrite lookup_insert_eq. eauto.
    + rewrite lookup_insert_ne by done. by apply wf_attached.
  - intros h. specialize (wf_ledger h). unfold engine.ledger_ok in *. simpl.
    destruct wf_ledger as (Hcd & Hdb & Hst).
    assert (Hanon : Forall engine.anonymous [engine.ev_created (engine.next_id w)])
      by (by repeat constructor).
    destruct (tally_app_anonymous h (engine.trace w) _ Hanon) as (-> & -> & -> & ->).
    split; [done|]. split.
    { apply detached_before_app_other; [done|].
      by apply anonymous_not_continuation. }
    destruct (decide (h = engine.next_id w)) as [->|Hne].
    + rewrite lookup_insert_eq. simpl. rewrite Hnone in Hst.
      destruct Hst as (Hda & Ha1 & Hd).
      rewrite decide_False in Hd by lia. destruct Hd as [Hd Ha].
      rewrite Hda, Ha. done.
    + rewrite lookup_insert_ne by done.
      destruct (engine.heap w !! h); [done|].
      destruct Hst as (Hda & Ha1 & Hd). split; [done|]. split; [done|].
      destruct (decide (h < engine.next_id w)%nat).
      * rewrite decide_True by lia. done.
      * rewrite decide_False by lia. done.
Qed.

Lemma tally_destroyed h h' rel tr :
  engine.continuations h (tr ++ [engine.ev_destroyed h' rel])
    = engine.continuations h tr /\
  engine.detaches h (tr ++ [engine.ev_destroyed h' rel])
    = engine.detaches h tr /\
  engine.attaches h (tr ++ [engine.ev_destroyed h' rel])
    = engine.attaches h tr /\
  engine.destructions h (tr ++ [engine.ev_destroyed h' rel])
    = (engine.destructions h tr + if decide (h = h') then 1 else 0)%nat.
Proof.
  destruct (tally_app h tr [engine.ev_destroyed h' rel]) as (-> & -> & -> & ->).
  unfold engine.continuations, engine.detaches, engine.attaches,
    engine.destructions, engine.occurrences. simpl.
  destruct (Nat.eqb_spec h h'); destruct (decide (h = h')); try done; simpl;
    repeat split; lia.
Qed.

Lemma wf_destroy h c rel w :
  engine.wf_world_except (Some h) w ->
  engine.heap w !! h = Some c ->
  call_context.curl_handle (engine.obj c) = None ->
  engine.wf_world (engine.destroy h rel w).
Proof.
  intros [] Hh Hs.
  assert (Hnotin : h ∉ engine.te_attached w).
  { specialize (wf_self h c Hh). by rewrite Hs in wf_self. }
  constructor; simpl; try done.
  - rewrite map_size_delete_Some by eauto. rewrite wf_count.
    apply wrap_size_t_pred.
    destruct (size (engine.heap w)) eqn:Hsz; [|lia].
    apply map_size_empty_inv in Hsz. rewrite Hsz in Hh. done.
  - intros h' [x Hx]. destruct (decide (h' = h)) as [->|Hne].
    + by rewrite lookup_delete_eq in Hx.
    + rewrite lookup_delete_ne in Hx by done. apply wf_fresh. eauto.
  - intros h' x _ Hx. destruct (decide (h' = h)) as [->|Hne].
    + by rewrite lookup_delete_eq in Hx.
    + rewrite lookup_delete_ne in Hx by done.
      eapply wf_owned; [|done]. congruence.
  - intros h' x Hx. destruct (decide (h' = h)) as [->|Hne].
    + by rewrite lookup_delete_eq in Hx.
    + rewrite lookup_delete_ne in Hx by done. by apply wf_self.
  - intros h' Hin. destruct (decide (h' = h)) as [->|Hne]; [done|].
    rewrite lookup_delete_ne by done. by apply wf_attached.
  - intros h'. specialize (wf_ledger h'). unfold engine.ledger_ok in *. simpl.
    destruct wf_ledger as (Hcd & Hdb & Hst).
    destruct (tally_destroyed h' h (call_context.dtor_releases rel) (engine.trace w))
      as (-> & -> & -> & ->).
    split; [done|]. split.
    { apply detached_before_app_other; [done|]. by repeat constructor. }
    destruct (decide (h' = h)) as [->|Hne].
    + rewrite lookup_delete_eq. rewrite Hh, Hs in Hst.
      assert (h < engine.next_id w)%nat by (apply wf_fresh; eauto).
      rewrite decide_True by done.
      destruct Hst as [Hd Hst].
      destruct (call_context._curl_done (engine.obj c)); destruct Hst as [-> ->];
        rewrite Hd; repeat split; lia.
    + rewrite lookup_delete_ne by done. rewrite Nat.add_0_r. done.
Qed.

Lemma tally_attach h h' tr :
  engine.continuations h (tr ++ [engine.ev_attach h'])
    = engine.continuations h tr /\
  engine.detaches h (tr ++ [engine.ev_attach h']) = engine.detaches h tr /\
  engine.attaches h (tr ++ [engine.ev_attach h'])
    = (engine.attaches h tr + if decide (h = h') then 1 else 0)%nat /\
  engine.destructions h (tr ++ [engine.ev_attach h'])
    = engine.destructions h tr.
Proof.
  destruct (tally_app h tr [engine.ev_attach h']) as (-> & -> & -> & ->).
  unfold engine.continuations, engine.detaches, engine.attaches,
    engine.destructions, engine.occurrences. simpl.
  destruct (Nat.eqb_spec h h'); destruct (decide (h = h')); try done; simpl;
    repeat split; lia.
Qed.

Lemma tally_retire h h' tr :
  engine.continuations h (tr ++ [engine.ev_detach h'; engine.ev_continuation h'])
    = (engine.continuations h tr + if decide (h = h') then 1 else 0)%nat /\
  engine.detaches h (tr ++ [engine.ev_detach h'; engine.ev_continuation h'])
    = (engine.detaches h tr + if decide (h = h') then 1 else 0)%nat /\
  engine.attaches h (tr ++ [engine.ev_detach h'; engine.ev_continuation h'])
    = engine.attaches h tr /\
  engine.destructions h (tr ++ [engine.ev_detach h'; engine.ev_continuation h'])
    = engine.destructions h tr.
Proof.
  destruct (tally_app h tr [engine.ev_detach h'; engine.ev_continuation h'])
    as (-> & -> & -> & ->).
  unfold engine.continuations, engine.detaches, engine.attaches,
    engine.destructions, engine.occurrences. simpl.
  destruct (Nat.eqb_spec h h'); destruct (decide (h = h')); try done; simpl;
    repeat split; lia.
Qed.

Lemma wf_perform_async h cb w w' :
  engine.wf_world w -> engine.perform_async h cb w = Some w' -> engine.wf_world w'.
Proof.
  intros [] Hsub. unfold engine.perform_async in Hsub.
  destruct (engine.accepting w); [|done].
  destruct (engine.heap w !! h) as [c|] eqn:Hh; [|done].
  destruct (engine.owners c) as [|n] eqn:Ho; [done|].
  destruct (call_context.curl_handle (engine.obj c)) eqn:Hs; [done|].
  destruct (call_context._curl_done (engine.obj c)) eqn:Hd; [done|].
  injection Hsub as <-.
  constructor; simpl; try done.
  - rewrite map_size_insert_Some by eauto. done.
  - intros h' [x Hx]. destruct (decide (h' = h)) as [->|Hne].
    + apply wf_fresh. eauto.
    + rewrite lookup_insert_ne in Hx by done. apply wf_fresh. eauto.
  - intros h' x _ Hx. destruct (decide (h' = h)) as [->|Hne].
    + rewrite lookup_insert_eq in Hx. injection Hx as <-. simpl. eauto.
    + rewrite lookup_insert_ne in Hx by done. by eapply wf_owned.
  - intros h' x Hx. destruct (decide (h' = h)) as [->|Hne].
    + rewrite lookup_insert_eq in Hx. injection Hx as <-. simpl.
      split; [done|]. split; [|done]. apply elem_of_app. right. by left.
    + rewrite lookup_insert_ne in Hx by done.
      specialize (wf_self h' x Hx).
      destruct (call_context.curl_handle (engine.obj x)).
      * destruct wf_self as (? & ? & ?). repeat split; try done.
        apply elem_of_app. by left.
      * rewrite elem_of_app, list_elem_of_singleton. intros [?|?]; done.
  - intros h' Hin. destruct (decide (h' = h)) as [->|Hne].
    + rewrite lookup_insert_eq. eauto.
    + rewrite lookup_insert_ne by done. apply wf_attached.
      apply elem_of_app in Hin as [?|Hin]; [done|].
      by apply list_elem_of_singleton in Hin.
  - intros h' Hin. apply elem_of_app. left. by apply wf_finished.
  - intros h'. specialize (wf_ledger h'). unfold engine.ledger_ok in *. simpl.
    destruct wf_ledger as (Hcd & Hdb & Hst).
    destruct (tally_attach h' h (engine.trace w)) as (-> & -> & -> & ->).
    split; [done|]. split.
    { apply detached_before_app_other; [done|]. by repeat constructor. }
    destruct (decide (h' = h)) as [->|Hne].
    + rewrite lookup_insert_eq. simpl. rewrite Hh, Hs, Hd in Hst.
      destruct Hst as (? & -> & ->). done.
    + rewrite lookup_insert_ne by done. rewrite Nat.add_0_r. done.
Qed.

Lemma in_flight_spec h w :
  engine.in_flight h w = true ->
  h ∈ engine.te_attached w /\ h ∉ (engine.te_finished w).*1.
Proof.
  unfold engine.in_flight. rewrite andb_true_iff, negb_true_iff.
  rewrite bool_decide_eq_true, bool_decide_eq_false. done.
Qed.

Lemma wf_finish h o w w' :
  engine.wf_world w -> engine.finish h o w = Some w' -> engine.wf_world w'.
Proof.
  intros [] Hfin. unfold engine.finish in Hfin.
  destruct (engine.in_flight h w) eqn:Hif; [|done].
  apply in_flight_spec in Hif as [Hin Hnot].
  injection Hfin as <-.
  constructor; simpl; try done.
  - intros h'. rewrite fmap_app, elem_of_app. simpl.
    rewrite list_elem_of_singleton. intros [?| ->]; [by apply wf_finished|done].
  - rewrite fmap_app. apply NoDup_app. split; [done|]. split.
    + intros x Hx. simpl. rewrite list_elem_of_singleton. by intros ->.
    + simpl. apply NoDup_singleton.
Qed.

Lemma wf_write_cb h l w w' :
  engine.wf_world w -> engine.write_cb h l w = Some w' -> engine.wf_world w'.
Proof.
  intros Hwf Hdl. unfold engine.write_cb in Hdl.
  destruct (engine.in_flight h w); [|done].
  destruct (engine.heap w !! h) as [c|] eqn:Hh; [|done].
  unfold lifecycle.receive in Hdl.
  destruct (buffer.append l (call_context._rx_buffer (engine.obj c)));
    [|done].
  injection Hdl as <-.
  eapply wf_update_cell; eauto.
  simpl. intros _ Ho. eapply (engine.wf_owned _ _ Hwf); eauto.
Qed.

Lemma wf_share h w w' :
  engine.wf_world w -> engine.share h w = Some w' -> engine.wf_world w'.
Proof.
  intros Hwf Hsh. unfold engine.share in Hsh.
  destruct (engine.heap w !! h) as [c|] eqn:Hh; [|done].
  destruct (engine.owners c); [done|].
  injection Hsh as <-.
  eapply wf_update_cell; eauto. done.
Qed.

Lemma wf_drop h w w' :
  engine.wf_world w -> engine.drop h w = Some w' -> engine.wf_world w'.
Proof.
  intros Hwf Hdr. unfold engine.drop in Hdr.
  destruct (engine.heap w !! h) as [c|] eqn:Hh; [|done].
  destruct (engine.owners c) as [|[|n]] eqn:Ho; [done| |].
  - destruct (call_context.curl_handle (engine.obj c)) eqn:Hs;
      injection Hdr as <-.
    + eapply wf_update_cell; eauto.
    + eapply wf_destroy; eauto. by apply wf_weaken.
  - assert (w' = engine.with_heap
                   (<[h := engine.mk_cell (engine.obj c) (S n)]> (engine.heap w)) w)
      as -> by (destruct (call_context.curl_handle (engine.obj c)); congruence).
    eapply wf_update_cell; eauto. done.
Qed.

Lemma retire_released now o c :
  call_context.curl_handle (lifecycle.retire now o c) = None /\
  call_context._curl_done (lifecycle.retire now o c) = true.
Proof.
  unfold lifecycle.retire, lifecycle.finalize.
  by destruct (lifecycle.response_status o).
Qed.

(** The world between the retirement of [h] and the moment the drainer lets
    go of its handle. *)
Lemma wf_retired_cell h o q c n w :
  engine.wf_world w ->
  engine.te_finished w = (h, o) :: q ->
  engine.heap w !! h = Some c ->
  engine.wf_world_except (Some h)
    (engine.with_heap
       (<[h := engine.mk_cell (lifecycle.retire (engine.clock w) o (engine.obj c)) n]>
          (engine.heap w))
       (engine.log [engine.ev_detach h; engine.ev_continuation h]
          (engine.with_te (filter (fun x => x <> h) (engine.te_attached w)) q w))).
Proof.
  intros [] Hq Hh.
  rewrite Hq in wf_finished, wf_finished_nodup.
  simpl in wf_finished, wf_finished_nodup.
  apply NoDup_cons in wf_finished_nodup as [Hnq Hndq].
  assert (Hatt : h ∈ engine.te_attached w) by (apply wf_finished; by left).
  pose proof (wf_self h c Hh) as Hself.
  destruct (call_context.curl_handle (engine.obj c)) as [h0|] eqn:Hs0; [|done].
  constructor; simpl; try done.
  - rewrite map_size_insert_Some by eauto. done.
  - intros h' [x Hx]. destruct (decide (h' = h)) as [->|Hne].
    + apply wf_fresh. eauto.
    + rewrite lookup_insert_ne in Hx by done. apply wf_fresh. eauto.
  - intros h' x Hsk Hx. destruct (decide (h' = h)) as [->|Hne]; [done|].
    rewrite lookup_insert_ne in Hx by done. by eapply wf_owned.
  - intros h' x Hx. destruct (decide (h' = h)) as [->|Hne].
    + rewrite lookup_insert_eq in Hx. injection Hx as <-.
      destruct (retire_released (engine.clock w) o (engine.obj c)) as [Hs Hd].
      cbn [engine.obj]. rewrite Hs. rewrite list_elem_of_filter. by intros [? _].
    + rewrite lookup_insert_ne in Hx by done.
      specialize (wf_self h' x Hx).
      destruct (call_context.curl_handle (engine.obj x)).
      * destruct wf_self as (? & ? & ?). repeat split; try done.
        by apply list_elem_of_filter.
      * rewrite list_elem_of_filter. by intros [_ ?].
  - intros h' Hin. apply list_elem_of_filter in Hin as [Hne Hin].
    rewrite lookup_insert_ne by done. by apply wf_attached.
  - intros h' Hin. apply list_elem_of_filter. split.
    + by intros ->.
    + apply wf_finished. by right.
  - intros h'. specialize (wf_ledger h'). unfold engine.ledger_ok in *. simpl.
    destruct wf_ledger as (Hcd & Hdb & Hst).
    destruct (tally_retire h' h (engine.trace w)) as (-> & -> & -> & ->).
    split; [by rewrite Hcd|]. split; [by apply detached_before_app_retire|].
    destruct (decide (h' = h)) as [->|Hne].
    + rewrite lookup_insert_eq.
      destruct (retire_released (engine.clock w) o (engine.obj c)) as [Hs Hd].
      cbn [engine.obj]. rewrite Hs, Hd.
      rewrite Hh, Hs0 in Hst. destruct Hst as (? & -> & ->). done.
    + rewrite lookup_insert_ne by done. rewrite !Nat.add_0_r. done.
Qed.

Lemma wf_retire_one h o q w :
  engine.wf_world w ->
  engine.te_finished w = (h, o) :: q ->
  exists w',
    engine.retire_one h o (engine.with_te (engine.te_attached w) q w) = Some w' /\
    engine.wf_world w' /\ engine.te_finished w' = q.
Proof.
  intros Hwf Hq.
  assert (Hatt : h ∈ engine.te_attached w).
  { apply (engine.wf_finished _ _ Hwf). rewrite Hq. by left. }
  destruct (engine.wf_attached _ _ Hwf h Hatt) as [c Hh].
  unfold engine.retire_one. simpl. rewrite Hh.
  destruct (retire_released (engine.clock w) o (engine.obj c)) as [Hs Hd].
  destruct (engine.owners c) as [|n] eqn:Ho.
  - eexists. split; [done|]. split; [|done].
    pose proof (wf_retired_cell h o q c 0 w Hwf Hq Hh) as Hex.
    eapply (wf_destroy h _ (lifecycle.retire (engine.clock w) o (engine.obj c)))
      in Hex; [| by simpl; rewrite lookup_insert_eq | done].
    unfold engine.destroy in *. simpl in *.
    by rewrite delete_insert_eq in Hex.
  - eexists. split; [done|]. split; [|done].
    pose proof (wf_retired_cell h o q c (S n) w Hwf Hq Hh) as Hex.
    apply (wf_strengthen h); [exact Hex|].
    simpl. intros x Hx. rewrite lookup_insert_eq in Hx. by injection Hx as <-.
Qed.

Lemma wf_drain_loop n w :
  engine.wf_world w -> (length (engine.te_finished w) <= n)%nat ->
  exists w', engine.drain_loop n w = Some w' /\
             engine.wf_world w' /\ engine.te_finished w' = [].
Proof.
  revert w. induction n as [|n IH]; intros w Hwf Hlen.
  - destruct (engine.te_finished w) eqn:Hq; [|simpl in Hlen; lia].
    exists w. simpl. unfold engine.next_finished. by rewrite Hq.
  - simpl. unfold engine.next_finished.
    destruct (engine.te_finished w) as [|[h o] q] eqn:Hq; [by exists w|].
    destruct (wf_retire_one h o q w Hwf Hq) as (w1 & -> & Hwf1 & Hq1).
    apply IH; [done|]. rewrite Hq1. simpl in Hlen. lia.
Qed.

Lemma drain_loop_more_fuel n m w w' :
  engine.drain_loop n w = Some w' -> (n <= m)%nat ->
  engine.drain_loop m w = Some w'.
Proof.
  revert m w. induction n as [|n IH]; intros m w Hn Hle; simpl in Hn.
  - destruct (engine.next_finished w) as [[[h o] w1]|] eqn:Hnf; [done|].
    destruct m; simpl; by rewrite Hnf.
  - destruct m as [|m]; [lia|]. simpl.
    destruct (engine.next_finished w) as [[[h o] w1]|]; [|done].
    destruct (engine.retire_one h o w1) as [w2|]; [|done].
    apply IH; [done|lia].
Qed.

Lemma wf_check_completed w :
  engine.wf_world w ->
  exists w', engine.check_completed w = Some w' /\
             engine.wf_world w' /\ engine.te_finished w' = [].
Proof. intros Hwf. by apply wf_drain_loop. Qed.

Lemma wf_initial t0 :
  0 <= t0 <= INT64_MAX -> engine.wf_world (engine.initial t0).
Proof.
  intros Ht. constructor; simpl; try done.
  - intros h [x Hx]. by rewrite lookup_empty in Hx.
  - intros h Hin. by apply elem_of_nil in Hin.
  - apply NoDup_nil_2.
  - intros h. unfold engine.ledger_ok. simpl. rewrite lookup_empty.
    split; [done|]. split; [by intros i Hi|].
    repeat split; try done. cbv. lia.
Qed.

Lemma wf_close w : engine.wf_world w -> engine.wf_world (engine.close w).
Proof.
  intros Hwf. eapply wf_frame; eauto; try done.
  - by apply (engine.wf_clock _ _ Hwf).
  - apply anonymous_socket_closed.
Qed.

Lemma wf_step o w w' :
  engine.wf_world w -> engine.step o w = Some w' -> engine.wf_world w'.
Proof.
  intros Hwf Hst. pose proof (engine.wf_clock _ _ Hwf) as Hclk.
  destruct o; simpl in Hst.
  - by eapply wf_create.
  - by eapply wf_share.
  - by eapply wf_drop.
  - by eapply wf_perform_async.
  - by eapply wf_write_cb.
  - by eapply wf_finish.
  - unfold engine.advance in Hst.
    destruct (Z.leb_spec 0 d); [|done].
    destruct (Z.leb_spec (engine.clock w + d) INT64_MAX); [|done].
    injection Hst as <-.
    eapply (wf_frame _ w _ []); eauto; simpl; try done.
    + lia.
    + by rewrite app_nil_r.
  - destruct (wf_check_completed w Hwf) as (w1 & Hw1 & ? & _). congruence.
  - unfold engine.opensocket_cb in Hst.
    destruct (engine.socket_map w !! fd); [done|]. injection Hst as <-.
    eapply (wf_frame _ w _ []); eauto; simpl; try done. by rewrite app_nil_r.
  - unfold engine.sock_cb in Hst.
    destruct (engine.socket_map w !! fd); [|done]. injection Hst as <-.
    eapply (wf_frame _ w _ []); eauto; simpl; try done. by rewrite app_nil_r.
  - unfold engine.closesocket_cb in Hst.
    destruct (engine.socket_map w !! fd); [|done]. injection Hst as <-.
    eapply (wf_frame _ w _ []); eauto; simpl; try done. by rewrite app_nil_r.
  - injection Hst as <-.
    eapply wf_frame; eauto; simpl; try done. apply anonymous_socket_closed.
  - unfold engine.socket_rx_cb in Hst.
    destruct (engine.socket_map w !! fd) as [[]|]; try done;
      destruct (wf_check_completed w Hwf) as (w1 & Hw1 & ? & _); congruence.
  - unfold engine.socket_tx_cb in Hst.
    destruct (engine.socket_map w !! fd) as [[]|]; try done;
      destruct (wf_check_completed w Hwf) as (w1 & Hw1 & ? & _); congruence.
  - injection Hst as <-.
    eapply (wf_frame _ w _ []); eauto; simpl; try done. by rewrite app_nil_r.
  - unfold engine.timer_cb in Hst. destruct (engine.timer w); [|done].
    assert (Hwf' : engine.wf_world (engine.with_timer None w)).
    { eapply (wf_frame _ w _ []); eauto; simpl; try done. by rewrite app_nil_r. }
    destruct (wf_check_completed _ Hwf') as (w1 & Hw1 & ? & _). congruence.
  - unfold engine.keepalivetimer_cb in Hst. destruct (engine.keepalive w); [|done].
    destruct (wf_check_completed w Hwf) as (w1 & Hw1 & ? & _). congruence.
  - injection Hst as <-. by apply wf_close.
Qed.

Lemma wf_reachable w : engine.reachable w -> engine.wf_world w.
Proof.
  induction 1 as [t0 Ht|o w w' _ IH Hst]; [by apply wf_initial|].
  by eapply wf_step.
Qed.

(** ** The counter decides nothing *)

Lemma erase_count_inv w1 w2 :
  engine.erase_count w1 = engine.erase_count w2 ->
  exists k, w2 = engine.with_globals
                   (mk_statics (s_spinlock (engine.globals w1)) k) w1.
Proof.
  destruct w1 as [? ? [lk1 k1] ? ? ? ? ? ? ? ? ?],
           w2 as [? ? [lk2 k2] ? ? ? ? ? ? ? ? ?].
  unfold engine.erase_count, engine.with_globals. simpl.
  intros H. injection H; intros; subst. by exists k2.
Qed.

Ltac blank_count :=
  match goal with
  | H : engine.erase_count ?w1 = engine.erase_count ?w2 |- _ =>
      let k := fresh "k" in
      destruct (erase_count_inv w1 w2 H) as [k ->]; clear H;
      destruct w1 as [? ? [? ?] ? ? ? ? ? ? ? ? ?]
  end.

Lemma retire_one_blind h o w1 w2 :
  engine.erase_count w1 = engine.erase_count w2 ->
  engine.erase_count <$> engine.retire_one h o w1
  = engine.erase_count <$> engine.retire_one h o w2.
Proof.
  intros H. blank_count. unfold engine.retire_one. simpl.
  repeat case_match; done.
Qed.

Lemma next_finished_blind w1 w2 :
  engine.erase_count w1 = engine.erase_count w2 ->
  match engine.next_finished w1, engine.next_finished w2 with
  | None, None => True
  | Some (x1, w1'), Some (x2, w2') =>
      x1 = x2 /\ engine.erase_count w1' = engine.erase_count w2'
  | _, _ => False
  end.
Proof.
  intros H. blank_count. unfold engine.next_finished. simpl.
  repeat case_match; simplify_eq; done.
Qed.

Lemma drain_loop_blind n w1 w2 :
  engine.erase_count w1 = engine.erase_count w2 ->
  engine.erase_count <$> engine.drain_loop n w1
  = engine.erase_count <$> engine.drain_loop n w2.
Proof.
  revert w1 w2. induction n as [|n IH]; intros w1 w2 H; simpl;
    pose proof (next_finished_blind w1 w2 H) as Hn;
    destruct (engine.next_finished w1) as [[[h1 o1] w1']|],
             (engine.next_finished w2) as [[[h2 o2] w2']|];
    try done; simpl; try (by rewrite H).
  destruct Hn as [Hx Hw]. injection Hx as -> ->.
  pose proof (retire_one_blind h2 o2 w1' w2' Hw) as Hr.
  destruct (engine.retire_one h2 o2 w1') as [w1''|],
           (engine.retire_one h2 o2 w2') as [w2''|]; simpl in Hr; try done.
  apply IH. congruence.
Qed.

Lemma check_completed_blind w1 w2 :
  engine.erase_count w1 = engine.erase_count w2 ->
  engine.erase_count <$> engine.check_completed w1
  = engine.erase_count <$> engine.check_completed w2.
Proof.
  intros H. unfold engine.check_completed.
  assert (engine.te_finished w1 = engine.te_finished w2) as ->.
  { blank_count. done. }
  by apply drain_loop_blind.
Qed.

Lemma step_blind o w1 w2 :
  engine.erase_count w1 = engine.erase_count w2 ->
  engine.erase_count <$> engine.step o w1
  = engine.erase_count <$> engine.step o w2.
Proof.
  intros H. destruct o; simpl.
  - blank_count. done.
  - blank_count. unfold engine.share. simpl. repeat case_match; done.
  - blank_count. unfold engine.drop. simpl. repeat case_match; done.
  - blank_count. unfold engine.perform_async. simpl. repeat case_match; done.
  - blank_count. unfold engine.write_cb, engine.in_flight. simpl.
    repeat case_match; done.
  - blank_count. unfold engine.finish, engine.in_flight. simpl.
    repeat case_match; done.
  - blank_count. unfold engine.advance. simpl. repeat case_match; done.
  - by apply check_completed_blind.
  - blank_count. unfold engine.opensocket_cb. simpl. repeat case_match; done.
  - blank_count. unfold engine.sock_cb. simpl. repeat case_match; done.
  - blank_count. unfold engine.closesocket_cb. simpl. repeat case_match; done.
  - blank_count. done.
  - unfold engine.socket_rx_cb.
    assert (engine.socket_map w1 = engine.socket_map w2) as ->
      by (blank_count; done).
    repeat case_match; try done; by apply check_completed_blind.
  - unfold engine.socket_tx_cb.
    assert (engine.socket_map w1 = engine.socket_map w2) as ->
      by (blank_count; done).
    repeat case_match; try done; by apply check_completed_blind.
  - blank_count. done.
  - unfold engine.timer_cb.
    assert (engine.timer w1 = engine.timer w2) as -> by (blank_count; done).
    case_match; [|done]. apply check_completed_blind. blank_count. done.
  - unfold engine.keepalivetimer_cb.
    assert (engine.keepalive w1 = engine.keepalive w2) as ->
      by (blank_count; done).
    case_match; [|done]. by apply check_completed_blind.
  - blank_count. done.
Qed.

Lemma reachable_run ops w w' :
  engine.reachable w -> engine.run ops w = Some w' -> engine.reachable w'.
Proof.
  revert w. induction ops as [|o ops IH]; intros w Hw Hrun; simpl in Hrun.
  - by injection Hrun as <-.
  - destruct (engine.step o w) as [w1|] eqn:Hst; [|done].
    eapply IH; [|done]. by eapply engine.reachable_step.
Qed.

Lemma reachable_world_finished : engine.reachable samples.world_finished.
Proof.
  apply (reachable_run samples.ops_until_finished (engine.initial 2000000)).
  - apply engine.reachable_initial. by vm_compute.
  - by vm_compute.
Qed.

Lemma reachable_world_drained : engine.reachable samples.world_drained.
Proof.
  apply (engine.reachable_step engine.op_drain samples.world_finished).
  - apply reachable_world_finished.
  - by vm_compute.
Qed.

(** ** The completion drainer *)

(** C5. [check_completed()] (the spec's [drain()]) returns, and when it
    returns the sequence of finished handles is empty: a second call right
    after it finds nothing, so that it leaves the world as it is: no further
    context is retired and no further continuation is invoked. *)
Theorem drain_exhausts_finished_handles (w : engine.world) :
  engine.reachable w ->
  exists w1,
    engine.check_completed w = Some w1 /\
    engine.te_finished w1 = [] /\
    engine.check_completed w1 = Some w1 /\
    (forall w2, engine.check_completed w1 = Some w2 ->
       engine.trace w2 = engine.trace w1 /\ engine.heap w2 = engine.heap w1).
Proof.
  intros Hr. apply wf_reachable in Hr.
  destruct (wf_check_completed w Hr) as (w1 & Hw1 & _ & Hq).
  exists w1. split; [done|]. split; [done|].
  assert (Hagain : engine.check_completed w1 = Some w1).
  { unfold engine.check_completed. rewrite Hq. simpl.
    unfold engine.next_finished. by rewrite Hq. }
  split; [done|]. intros w2 Hw2. rewrite Hagain in Hw2. by injection Hw2 as <-.
Qed.

Lemma drain_exhausts_finished_handles_witness :
  engine.reachable samples.world_finished /\
  engine.te_finished samples.world_finished <> [] /\
  exists w1,
    engine.check_completed samples.world_finished = Some w1 /\
    engine.te_finished w1 = [] /\
    engine.check_completed w1 = Some w1.
Proof.
  split; [exact reachable_world_finished|]. split; [by vm_compute|].
  destruct (drain_exhausts_finished_handles samples.world_finished
              reachable_world_finished) as (w1 & H1 & H2 & H3 & _).
  exists w1. split; [exact H1|]. split; [exact H2|exact H3].
Defined.

(** ** Every finished handle gets its continuation *)

















Lemma world_ext (w1 w2 : engine.world) :
  engine.heap w1 = engine.heap w2 ->
  engine.next_id w1 = engine.next_id w2 ->
  engine.globals w1 = engine.globals w2 ->
  engine.clock w1 = engine.clock w2 ->
  engine.te_attached w1 = engine.te_attached w2 ->
  engine.te_finished w1 = engine.te_finished w2 ->
  engine.socket_map w1 = engine.socket_map w2 ->
  engine.deferred w1 = engine.deferred w2 ->
  engine.timer w1 = engine.timer w2 ->
  engine.keepalive w1 = engine.keepalive w2 ->
  engine.accepting w1 = engine.accepting w2 ->
  engine.trace w1 = engine.trace w2 ->
  w1 = w2.
Proof. destruct w1, w2. simpl. by intros -> -> -> -> -> -> -> -> -> -> -> ->. Qed.








(** A continuation that does nothing: the drainer of the engine. *)
Lemma retire_with_nothing h o w :
  engine.retire_with (fun _ => []) h o w = engine.retire_one h o w.
Proof.
  unfold engine.retire_with, engine.retire_one.
  destruct (engine.heap w !! h) as [c|] eqn:Hh; [|done].
  cbn [engine.heap engine.with_heap].
  rewrite lookup_insert_eq.
  cbn [engine.owners engine.obj app engine.run engine.step].
  unfold engine.drop.
  cbn [engine.heap engine.with_heap engine.log engine.with_te engine.clock].
  rewrite lookup_insert_eq.
  cbn [engine.owners engine.obj].
  destruct (retire_released (engine.clock w) o (engine.obj c)) as [Hs _].
  rewrite Hs.
  destruct (engine.owners c) as [|n]; f_equal; apply world_ext;
    cbn [engine.heap engine.next_id engine.globals engine.clock
         engine.te_attached engine.te_finished engine.socket_map
         engine.deferred engine.timer engine.keepalive engine.accepting
         engine.trace engine.destroy engine.log engine.with_globals
         engine.with_heap engine.with_te];
    try reflexivity.
  - by rewrite !delete_insert_eq.
  - by rewrite !insert_insert_eq.
Qed.

Lemma drain_loop_with_nothing n w :
  engine.drain_loop_with (fun _ => []) n w = engine.drain_loop n w.
Proof.
  revert w. induction n as [|n IH]; intros w; simpl; [done|].
  destruct (engine.next_finished w) as [[[h o] w1]|]; [|done].
  rewrite retire_with_nothing.
  by destruct (engine.retire_one h o w1).
Qed.

Lemma check_completed_with_nothing w :
  engine.check_completed_with (fun _ => []) w = engine.check_completed w.
Proof. apply drain_loop_with_nothing. Qed.




(** ** Shutdown *)

(** C7. [close()] (the spec's [shutdown()]) is idempotent: a second call
    leaves the world, and with it the trace, exactly as the first call left
    it. The first call releases every registered socket once and no other;
    no call invokes a continuation. *)
Theorem shutdown_idempotent (w : engine.world) :
  engine.close (engine.close w) = engine.close w /\
  engine.trace (engine.close (engine.close w)) = engine.trace (engine.close w) /\
  (exists fds,
     engine.trace (engine.close w)
       = engine.trace w ++ (engine.ev_socket_closed <$> fds) /\
     NoDup fds /\
     forall fd, fd ∈ fds <-> is_Some (engine.socket_map w !! fd)) /\
  (forall h, engine.continuations h (engine.trace (engine.close w))
             = engine.continuations h (engine.trace w)).
Proof.
  assert (Hidem : engine.close (engine.close w) = engine.close w).
  { unfold engine.close. simpl. rewrite map_to_list_empty. simpl.
    by rewrite app_nil_r. }
  split; [done|]. split; [by rewrite Hidem|]. split.
  - exists (map_to_list (engine.socket_map w)).*1. split; [done|]. split.
    + apply NoDup_fst_map_to_list.
    + intros fd. rewrite list_elem_of_fmap. split.
      * intros ([fd' m] & -> & Hin). apply elem_of_map_to_list in Hin. eauto.
      * intros [m Hm]. exists (fd, m). split; [done|].
        by apply elem_of_map_to_list.
  - intros h. simpl.
    by destruct (tally_app_anonymous h (engine.trace w) _
                   (anonymous_socket_closed (map_to_list (engine.socket_map w)).*1))
      as (-> & _).
Qed.

(** ** The live-context counter *)

Lemma spin_spawn_routines (rs : list spin.routine) :
  spin.routine_of <$> (spin.spawn <$> rs) = rs.
Proof. induction rs as [|r rs IH]; [done|]. rewrite !fmap_cons, IH. done. Qed.

Lemma spin_count_interleaved c0 rs sched :
  0 <= c0 <= SIZE_MAX ->
  s_context_count
    (spin.globals (spin.run sched (spin.start (mk_statics false c0) rs)))
  = wrap_size_t
      (c0 + spin.total
              (spin.threads (spin.run sched (spin.start (mk_statics false c0) rs)))).
Proof.
  intros Hc.
  destruct (spin_run_invariant c0 None _ sched (spin_start_invariant c0 rs Hc))
    as (holder & _ & Hcount & _).
  exact Hcount.
Qed.

(** C4. The counter [s_context_count] is touched by the constructor, the
    destructor and [connection_count()] only, each time with [s_spinlock]
    held. A constructor adds exactly one and a destructor takes exactly one
    away, and because of the lock this stays true however the invocations
    of several threads are interleaved. In every world the engine can reach
    the counter equals the number of live [call_context] objects. No step
    of the engine depends on the counter: two worlds that differ in the
    counter only make the same steps and differ in the counter only
    afterwards. *)
Theorem live_context_counter :
  (forall r, spin.guarded (spin.code_of r) = true) /\
  (forall g, s_spinlock g = false ->
     spin.globals (spin.run [0; 0; 0; 0]%nat (spin.start g [spin.ctor]))
       = call_context.ctor_statics g /\
     spin.globals (spin.run [0; 0; 0; 0]%nat (spin.start g [spin.dtor]))
       = call_context.dtor_statics g /\
     s_context_count (call_context.ctor_statics g)
       = wrap_size_t (s_context_count g + 1) /\
     s_context_count (call_context.dtor_statics g)
       = wrap_size_t (s_context_count g - 1)) /\
  (forall c0 rs sched, 0 <= c0 <= SIZE_MAX ->
     s_context_count
       (spin.globals (spin.run sched (spin.start (mk_statics false c0) rs)))
     = wrap_size_t
         (c0 + spin.total
                 (spin.threads
                    (spin.run sched (spin.start (mk_statics false c0) rs)))) /\
     ((forall t,
         t ∈ spin.threads (spin.run sched (spin.start (mk_statics false c0) rs)) ->
         spin.finished t = true) ->
      s_context_count
        (spin.globals (spin.run sched (spin.start (mk_statics false c0) rs)))
      = wrap_size_t (c0 + (spin.invocations spin.ctor rs
                           - spin.invocations spin.dtor rs)))) /\
  (forall w, engine.reachable w ->
     call_context.connection_count (engine.globals w)
       = wrap_size_t (Z.of_nat (size (engine.heap w))) /\
     (Z.of_nat (size (engine.heap w)) <= SIZE_MAX ->
      call_context.connection_count (engine.globals w)
        = Z.of_nat (size (engine.heap w)))) /\
  (forall o w1 w2,
     engine.erase_count w1 = engine.erase_count w2 ->
     engine.erase_count <$> engine.step o w1
     = engine.erase_count <$> engine.step o w2).
Proof.
  split; [by intros []|]. split; [|split; [|split]].
  - intros g Hg.
    rewrite (spin_ctor_alone g Hg), (spin_dtor_alone g Hg). done.
  - intros c0 rs sched Hc.
    pose proof (spin_count_interleaved c0 rs sched Hc) as Hcount.
    split; [exact Hcount|]. intros Hfin. rewrite Hcount.
    rewrite (spin_total_finished _ Hfin), spin_run_routines. simpl.
    by rewrite spin_spawn_routines.
  - intros w Hr. apply wf_reachable in Hr.
    pose proof (engine.wf_count _ _ Hr) as Hcount.
    unfold call_context.connection_count.
    split; [exact Hcount|]. intros Hsz. rewrite Hcount.
    apply wrap_size_t_small. lia.
  - apply step_blind.
Qed.

Lemma live_context_counter_witness :
  s_context_count
    (spin.globals
       (spin.run samples.schedule
          (spin.start (mk_statics false 1) samples.routines))) = 2 /\
  engine.reachable samples.world_finished /\
  call_context.connection_count (engine.globals samples.world_finished) = 1.
Proof.
  destruct live_context_counter as (_ & _ & Hspin & Hlive & _).
  split; [|split; [exact reachable_world_finished|]].
  - destruct (Hspin 1 samples.routines samples.schedule) as [Hcount _];
      [by vm_compute|].
    rewrite Hcount. reflexivity.
  - destruct (Hlive samples.world_finished reachable_world_finished)
      as [_ Hsize].
    rewrite Hsize; [reflexivity|by vm_compute].
Defined.

(** ** Runs of buffer operations *)

Lemma buffer_run_growing o b b' :
  buffer.wf b -> buffer_runs.is_pop_back o = false ->
  buffer.run o b = Ok b' ->
  buffer.bytes b' = buffer.bytes b ++ buffer_runs.appended o /\
  buffer.wf b' /\
  buffer_runs.capacity b <= buffer_runs.capacity b'.
Proof.
  intros Hwf Hnp Hrun. pose proof Hwf as [Hs Hc].
  unfold buffer.bytes, buffer.wf, buffer_runs.capacity.
  destruct o as [sz|l|s|]; [| | |done]; simpl in Hrun.
  - unfold buffer.reserve in Hrun.
    destruct (vector.reserve sz (buffer._data b)) as [v'|] eqn:Hr; [|done].
    injection Hrun as <-. simpl.
    destruct (vector_reserve_spec sz _ Hwf) as [_ Hinv].
    destruct (Hinv v' Hr) as [-> Hwf']. rewrite app_nil_r.
    split; [done|]. split; [done|].
    unfold vector.reserve in Hr.
    destruct (vector.max_size <? sz); [done|].
    destruct (Z.ltb_spec (vector.capacity (buffer._data b)) sz);
      injection Hr as <-; simpl; lia.
  - unfold buffer.append in Hrun.
    destruct (vector.insert_end l (buffer._data b)) as [v'|] eqn:Hr; [|done].
    injection Hrun as <-. simpl.
    destruct (vector_insert_end_spec l _ Hwf) as [_ Hinv].
    destruct (Hinv v' Hr) as [-> Hwf']. split; [done|]. split; [done|].
    unfold vector.insert_end in Hr.
    destruct (Z.of_nat (length l) =? 0); [by injection Hr as <-|].
    destruct (Z.leb_spec (Z.of_nat (length l))
                (vector.capacity (buffer._data b) - vector.size (buffer._data b)));
      [by injection Hr as <-|].
    destruct (vector.check_len _ (buffer._data b)) as [c|] eqn:Hcl; [|done].
    injection Hr as <-. simpl.
    apply vector_check_len_inv in Hcl; [lia|done|lia].
  - unfold buffer.append_byte in Hrun.
    destruct (vector.push_back s (buffer._data b)) as [v'|] eqn:Hr; [|done].
    injection Hrun as <-. simpl.
    destruct (vector_push_back_spec s _ Hwf) as [_ Hinv].
    destruct (Hinv v' Hr) as [-> Hwf']. split; [done|]. split; [done|].
    unfold vector.push_back in Hr.
    destruct (Z.eqb_spec (vector.size (buffer._data b))
                (vector.capacity (buffer._data b))); [|by injection Hr as <-].
    destruct (vector.check_len 1 (buffer._data b)) as [c|] eqn:Hcl; [|done].
    injection Hr as <-. simpl.
    apply vector_check_len_inv in Hcl; [lia|done|lia].
Qed.

Lemma buffer_run_pop_back b b' :
  buffer.wf b -> buffer.pop_back b = Ok b' ->
  buffer.wf b' /\ buffer_runs.capacity b' = buffer_runs.capacity b /\
  buffer.size b' = buffer.size b - 1.
Proof.
  intros Hwf Hrun. pose proof Hwf as [Hs Hc].
  pose proof (vector_size_nonneg (buffer._data b)) as H0.
  destruct (Z.le_gt_cases 1 (buffer.size b)) as [Hn|Hn].
  - rewrite buffer_pop_back_nonempty in Hrun by done. injection Hrun as <-.
    unfold buffer.wf, vector.wf, buffer_runs.capacity, buffer.size,
      vector.size, buffer.bytes in *.
    simpl. rewrite length_take. lia.
  - rewrite buffer_pop_back_empty in Hrun; [done|done|].
    unfold buffer.size in *. lia.
Qed.

Lemma buffer_size_bytes b : buffer.size b = Z.of_nat (length (buffer.bytes b)).
Proof. reflexivity. Qed.

Lemma buffer_run_in_place o b b' :
  buffer.wf b -> buffer_runs.is_pop_back o = false ->
  buffer.run o b = Ok b' ->
  match o with
  | buffer.op_reserve sz => sz <= buffer_runs.capacity b
  | _ => True
  end ->
  buffer.size b' <= buffer_runs.capacity b ->
  buffer_runs.capacity b' = buffer_runs.capacity b.
Proof.
  intros Hwf Hnp Hrun Hres Hfit.
  destruct (buffer_run_growing o b b' Hwf Hnp Hrun) as (Hbytes & _ & _).
  rewrite buffer_size_bytes, Hbytes, length_app in Hfit.
  pose proof (buffer_size_bytes b) as Hsb. unfold buffer.size in Hsb.
  unfold buffer_runs.capacity in *.
  destruct o as [sz|l|s|]; [| | |done]; simpl in Hrun, Hfit.
  - unfold buffer.reserve, vector.reserve in Hrun.
    destruct (vector.max_size <? sz); [done|].
    destruct (Z.ltb_spec (vector.capacity (buffer._data b)) sz); [lia|].
    by injection Hrun as <-.
  - unfold buffer.append, vector.insert_end in Hrun.
    destruct (Z.of_nat (length l) =? 0); [by injection Hrun as <-|].
    destruct (Z.leb_spec (Z.of_nat (length l))
                (vector.capacity (buffer._data b) - vector.size (buffer._data b)));
      [by injection Hrun as <-|lia].
  - unfold buffer.append_byte, vector.push_back in Hrun.
    destruct (Z.eqb_spec (vector.size (buffer._data b))
                (vector.capacity (buffer._data b))); [lia|].
    by injection Hrun as <-.
Qed.


Lemma buffer_run_all_growing os b b' :
  buffer.wf b -> buffer_runs.growing os ->
  buffer_runs.run_all os b = Ok b' ->
  buffer.bytes b' = buffer.bytes b ++ concat (buffer_runs.appended <$> os) /\
  buffer.wf b'.
Proof.
  revert b. induction os as [|o os IH]; intros b Hwf Hg Hrun; simpl in Hrun.
  - injection Hrun as <-. simpl. by rewrite app_nil_r.
  - apply Forall_cons in Hg as [Ho Hg].
    destruct (buffer.run o b) as [b1|] eqn:Hr1; [|done].
    destruct (buffer_run_growing o b b1 Hwf Ho Hr1) as (Hb1 & Hwf1 & _).
    destruct (IH b1 Hwf1 Hg Hrun) as [Hb' Hwf'].
    split; [|done]. rewrite Hb', Hb1, fmap_cons. simpl. by rewrite app_assoc.
Qed.

(** X1. A run of [reserve] and [append] operations leaves in the buffer
    exactly the old content followed by the appended pieces in order, and
    the size grows by their total length; such a run succeeds at least
    when no [reserve] asks for more than the capacity and the final size
    stays within it, so that nothing has to be allocated. *)
Theorem buffer_appends_concatenate (os : list buffer.op) (b : buffer.t) :
  buffer.wf b -> buffer_runs.growing os ->
  (buffer_runs.reserves_at_most (buffer_runs.capacity b) os ->
   buffer.size b + Z.of_nat (length (concat (buffer_runs.appended <$> os)))
     <= buffer_runs.capacity b ->
   exists b', buffer_runs.run_all os b = Ok b') /\
  (forall b', buffer_runs.run_all os b = Ok b' ->
     buffer.bytes b' = buffer.bytes b ++ concat (buffer_runs.appended <$> os) /\
     buffer.size b'
     = buffer.size b
       + Z.of_nat (length (concat (buffer_runs.appended <$> os)))).
Proof.
  intros Hwf Hg. split.
  - revert b Hwf. induction os as [|o os IH]; intros b Hwf Hres Hfit; simpl.
    { eauto. }
    apply Forall_cons in Hg as [Ho Hg]. apply Forall_cons in Hres as [Hro Hres].
    rewrite fmap_cons in Hfit. simpl in Hfit. rewrite length_app in Hfit.
    assert (Hnp : o <> buffer.op_pop_back) by (by intros ->).
    destruct (buffer_run_in_place_ok o b Hwf Hnp) as [b1 Hb1].
    { unfold buffer_runs.in_place. destruct o; simpl in *; try done; lia. }
    rewrite Hb1.
    destruct (buffer_run_growing o b b1 Hwf Ho Hb1) as (Hbytes & Hwf1 & _).
    assert (Hsz1 : buffer.size b1
                   = buffer.size b + Z.of_nat (length (buffer_runs.appended o))).
    { rewrite !buffer_size_bytes, Hbytes, length_app. lia. }
    assert (Hcap : buffer_runs.capacity b1 = buffer_runs.capacity b).
    { apply (buffer_run_in_place o b b1); [done|done|done|exact Hro|lia]. }
    apply IH; try done; rewrite Hcap; [done|lia].
  - intros b' Hrun.
    destruct (buffer_run_all_growing os b b' Hwf Hg Hrun) as [Hb' _].
    split; [done|]. rewrite !buffer_size_bytes, Hb', length_app. lia.
Qed.

Lemma buffer_appends_concatenate_witness :
  buffer.wf buffer.new /\
  buffer_runs.growing buffer_runs.pieces /\
  exists b', buffer_runs.run_all buffer_runs.pieces buffer.new = Ok b' /\
             buffer.bytes b' = [x68; x69; x21] /\ buffer.size b' = 3.
Proof.
  assert (Hwf : buffer.wf buffer.new) by (by vm_compute).
  assert (Hg : buffer_runs.growing buffer_runs.pieces)
    by (repeat constructor).
  split; [exact Hwf|]. split; [exact Hg|].
  destruct (buffer_appends_concatenate buffer_runs.pieces buffer.new Hwf Hg)
    as [Hex Hinv].
  destruct Hex as [b' Hb']; [repeat constructor; by vm_compute|by vm_compute|].
  exists b'. split; [exact Hb'|].
  destruct (Hinv b' Hb') as [-> ->]. split; reflexivity.
Defined.

(** X2. As long as the content stays within the capacity and no [reserve]
    asks for more, a run of [reserve] and [append] operations leaves the
    capacity as it was: the storage is not reallocated. In particular a
    buffer as constructed takes 32 KiB this way. *)
Theorem buffer_no_reallocation_within_capacity
    (os : list buffer.op) (b b' : buffer.t) :
  buffer.wf b -> buffer_runs.growing os ->
  buffer_runs.reserves_at_most (buffer_runs.capacity b) os ->
  buffer_runs.run_all os b = Ok b' ->
  buffer.size b' <= buffer_runs.capacity b ->
  buffer_runs.capacity b' = buffer_runs.capacity b.
Proof.
  revert b. induction os as [|o os IH]; intros b Hwf Hg Hres Hrun Hfit;
    simpl in Hrun.
  - by injection Hrun as <-.
  - apply Forall_cons in Hg as [Ho Hg]. apply Forall_cons in Hres as [Hro Hres].
    destruct (buffer.run o b) as [b1|] eqn:Hr1; [|done].
    destruct (buffer_run_growing o b b1 Hwf Ho Hr1) as (_ & Hwf1 & _).
    destruct (buffer_run_all_growing os b1 b' Hwf1 Hg Hrun) as [Hb' _].
    assert (Hle : buffer.size b1 <= buffer.size b').
    { rewrite !buffer_size_bytes, Hb', length_app. lia. }
    assert (Hcap : buffer_runs.capacity b1 = buffer_runs.capacity b).
    { apply (buffer_run_in_place o b b1); [done|done|done|exact Hro|lia]. }
    rewrite <- Hcap. apply IH; try done; by rewrite Hcap.
Qed.

Lemma buffer_no_reallocation_within_capacity_witness :
  exists b', buffer_runs.run_all buffer_runs.pieces buffer.new = Ok b' /\
             buffer_runs.capacity b' = 32 * 1024.
Proof.
  exists (buffer.mk (vector.mk [x68; x69; x21] (32 * 1024))).
  split; [reflexivity|].
  apply (buffer_no_reallocation_within_capacity buffer_runs.pieces buffer.new).
  - by vm_compute.
  - repeat constructor.
  - repeat constructor. by vm_compute.
  - reflexivity.
  - by vm_compute.
Defined.

(** X3. Whatever operations are run on a buffer, [pop_back] included, a run
    that succeeds leaves a buffer that satisfies the invariant of its
    vector (size at most capacity at most [max_size()]), and the capacity
    never gets smaller. *)
Theorem buffer_runs_keep_invariant (os : list buffer.op) (b b' : buffer.t) :
  buffer.wf b -> buffer_runs.run_all os b = Ok b' ->
  buffer.wf b' /\
  buffer_runs.capacity b <= buffer_runs.capacity b' /\
  0 <= buffer.size b' <= buffer_runs.capacity b'.
Proof.
  revert b. induction os as [|o os IH]; intros b Hwf Hrun; simpl in Hrun.
  - injection Hrun as <-. split; [done|]. split; [lia|].
    pose proof (vector_size_nonneg (buffer._data b)). destruct Hwf.
    unfold buffer.size, buffer_runs.capacity. lia.
  - destruct (buffer.run o b) as [b1|] eqn:Hr1; [|done].
    assert (Hstep : buffer.wf b1 /\
                    buffer_runs.capacity b <= buffer_runs.capacity b1).
    { destruct (buffer_runs.is_pop_back o) eqn:Hp.
      - destruct o; try done. simpl in Hr1.
        destruct (buffer_run_pop_back b b1 Hwf Hr1) as (? & -> & _).
        split; [done|lia].
      - destruct (buffer_run_growing o b b1 Hwf Hp Hr1) as (_ & ? & ?). done. }
    destruct Hstep as [Hwf1 Hc1].
    destruct (IH b1 Hwf1 Hrun) as (? & ? & ?). split; [done|]. split; lia.
Qed.

Lemma buffer_runs_keep_invariant_witness :
  buffer.wf buffer.new /\
  exists b',
    buffer_runs.run_all (buffer_runs.pieces ++ [buffer.op_pop_back]) buffer.new
      = Ok b' /\
    buffer.wf b' /\ buffer.size b' = 2.
Proof.
  assert (Hwf : buffer.wf buffer.new) by (by vm_compute).
  split; [exact Hwf|].
  exists (buffer.mk (vector.mk [x68; x69] (32 * 1024))).
  split; [reflexivity|]. split; [|reflexivity].
  exact (proj1 (buffer_runs_keep_invariant
                  (buffer_runs.pieces ++ [buffer.op_pop_back]) buffer.new _
                  Hwf eq_refl)).
Defined.



(** X5. The two overloads of [append] agree: appending one byte with
    [append(uint8_t)] has the same result, content and capacity, as
    appending the range that holds just that byte. *)
Theorem append_overloads_agree (s : byte) (b : buffer.t) :
  buffer.wf b -> buffer.append_byte s b = buffer.append [s] b.
Proof.
  intros [Hs Hc]. unfold buffer.append_byte, buffer.append. f_equal.
  unfold vector.push_back, vector.insert_end. simpl.
  change (Z.of_nat 1) with 1.
  destruct (Z.eqb_spec (vector.size (buffer._data b))
              (vector.capacity (buffer._data b))) as [He|Hne].
  - destruct (Z.leb_spec 1 (vector.capacity (buffer._data b)
                            - vector.size (buffer._data b))); [lia|done].
  - destruct (Z.leb_spec 1 (vector.capacity (buffer._data b)
                            - vector.size (buffer._data b))); [done|lia].
Qed.

Lemma append_overloads_agree_witness :
  buffer.wf more_samples.one /\
  buffer.append_byte x2a more_samples.one = buffer.append [x2a] more_samples.one.
Proof.
  assert (Hwf : buffer.wf more_samples.one) by (by vm_compute).
  split; [exact Hwf|]. exact (append_overloads_agree x2a more_samples.one Hwf).
Defined.

(** ** More on the accessors of the request context *)

(** X6. [milliseconds()] and [microseconds()] are consistent: the
    milliseconds are the microseconds divided by 1000 with truncation
    towards zero, so the two differ by less than one millisecond and never
    disagree in sign. *)
Theorem milliseconds_from_microseconds (c : call_context.t) :
  call_context.milliseconds c = Z.quot (call_context.microseconds c) 1000 /\
  Z.abs (call_context.microseconds c - 1000 * call_context.milliseconds c)
    < 1000 /\
  (0 <= call_context.microseconds c -> 0 <= call_context.milliseconds c) /\
  (call_context.microseconds c <= 0 -> call_context.milliseconds c <= 0).
Proof.
  unfold call_context.milliseconds, call_context.microseconds.
  set (d := call_context._end_ts c - call_context._start_ts c).
  assert (Hq : Z.quot d 1000000 = Z.quot (Z.quot d 1000) 1000).
  { rewrite Z.quot_quot by lia. reflexivity. }
  rewrite Hq. split; [done|].
  Z.to_euclidean_division_equations. lia.
Qed.

Lemma milliseconds_from_microseconds_witness :
  call_context.microseconds more_samples.slow = 4000 /\
  call_context.milliseconds more_samples.slow = 4 /\
  0 <= call_context.milliseconds more_samples.slow.
Proof.
  split; [reflexivity|]. split; [reflexivity|].
  apply (proj1 (proj2 (proj2
    (milliseconds_from_microseconds more_samples.slow)))).
  by vm_compute.
Defined.

(** X7. An exchange that took less than one millisecond has
    [milliseconds() = 0], and [rx_kb_per_sec()] then reports 0 however many
    bytes were received. *)
Theorem rx_kb_per_sec_zero_below_one_millisecond (c : call_context.t) :
  -1000000 < call_context._end_ts c - call_context._start_ts c < 1000000 ->
  call_context.milliseconds c = 0 /\
  call_context.rx_kb_per_sec c = Some 0.
Proof.
  intros Hd.
  assert (Hms : call_context.milliseconds c = 0).
  { unfold call_context.milliseconds.
    Z.to_euclidean_division_equations. lia. }
  split; [done|]. unfold call_context.rx_kb_per_sec. by rewrite Hms.
Qed.

Lemma rx_kb_per_sec_zero_below_one_millisecond_witness :
  call_context.rx_content_length more_samples.quick = 4 /\
  call_context.microseconds more_samples.quick = 500 /\
  call_context.rx_kb_per_sec more_samples.quick = Some 0.
Proof.
  split; [reflexivity|]. split; [reflexivity|].
  refine (proj2 (rx_kb_per_sec_zero_below_one_millisecond more_samples.quick _)).
  by vm_compute.
Defined.

(** X8. For a positive elapsed time and a body of at most [INT_MAX] bytes
    the cast to [int] loses nothing: [rx_kb_per_sec()] is the byte count
    divided by the milliseconds, rounded down; it lies between 0 and the
    byte count. *)
Theorem rx_kb_per_sec_exact_below_2GiB (c : call_context.t) :
  call_context.ts_wf c ->
  0 < call_context.milliseconds c ->
  call_context.rx_content_length c <= INT_MAX ->
  call_context.rx_kb_per_sec c
    = Some (call_context.rx_content_length c / call_context.milliseconds c) /\
  0 <= call_context.rx_content_length c / call_context.milliseconds c
    <= call_context.rx_content_length c /\
  call_context.milliseconds c
    * (call_context.rx_content_length c / call_context.milliseconds c)
    <= call_context.rx_content_length c
    < call_context.milliseconds c
      * (call_context.rx_content_length c / call_context.milliseconds c + 1).
Proof.
  intros Hts Hms Hsz.
  pose proof (milliseconds_in_range c Hts) as Hr.
  assert (H0 : 0 <= call_context.rx_content_length c)
    by apply vector_size_nonneg.
  assert (Hq : 0 <= call_context.rx_content_length c / call_context.milliseconds c
               <= call_context.rx_content_length c).
  { split; [apply Z.div_pos; lia|]. apply Z.div_le_upper_bound; [lia|]. nia. }
  split; [|split; [exact Hq|]].
  - unfold call_context.rx_kb_per_sec, udiv.
    destruct (Z.eqb_spec (call_context.milliseconds c) 0); [lia|].
    rewrite to_size_t_pos by lia.
    destruct (Z.eqb_spec (call_context.milliseconds c) 0); [lia|].
    rewrite to_int_small; [done|lia].
  - pose proof (Z.mul_div_le (call_context.rx_content_length c)
                  (call_context.milliseconds c) Hms).
    pose proof (Z.mul_succ_div_gt (call_context.rx_content_length c)
                  (call_context.milliseconds c) Hms).
    lia.
Qed.

Lemma rx_kb_per_sec_exact_below_2GiB_witness :
  call_context.ts_wf more_samples.slow /\
  0 < call_context.milliseconds more_samples.slow /\
  call_context.rx_content_length more_samples.slow <= INT_MAX /\
  call_context.rx_kb_per_sec more_samples.slow = Some 1.
Proof.
  assert (Hts : call_context.ts_wf more_samples.slow) by (by vm_compute).
  assert (Hms : 0 < call_context.milliseconds more_samples.slow) by reflexivity.
  assert (Hsz : call_context.rx_content_length more_samples.slow <= INT_MAX)
    by (by vm_compute).
  split; [exact Hts|]. split; [exact Hms|]. split; [exact Hsz|].
  rewrite (proj1 (rx_kb_per_sec_exact_below_2GiB more_samples.slow Hts Hms Hsz)).
  reflexivity.
Defined.

(** X9. When the elapsed milliseconds are negative (the end time point lies
    before the start time point, as for a context whose end has not been
    recorded), [rx_kb_per_sec()] returns 0: the negative value becomes a
    [size_t] above every possible byte count. *)
Theorem rx_kb_per_sec_zero_for_negative_elapsed (c : call_context.t) :
  call_context.ts_wf c ->
  buffer.wf (call_context._rx_buffer c) ->
  call_context.milliseconds c < 0 ->
  call_context.rx_content_length c < to_size_t (call_context.milliseconds c) /\
  call_context.rx_kb_per_sec c = Some 0.
Proof.
  intros Hts [Hs Hc] Hms.
  pose proof (milliseconds_in_range c Hts) as Hr.
  assert (H0 : 0 <= call_context.rx_content_length c)
    by apply vector_size_nonneg.
  assert (Hconv : to_size_t (call_context.milliseconds c)
                  = call_context.milliseconds c + 2 ^ 64).
  { unfold to_size_t, INT64_MIN in *.
    rewrite <- (Z.mod_add _ 1 (2 ^ 64)) by lia.
    rewrite Z.mod_small; lia. }
  assert (Hlt : call_context.rx_content_length c
                < to_size_t (call_context.milliseconds c)).
  { rewrite Hconv. unfold call_context.rx_content_length, buffer.size,
      vector.max_size, PTRDIFF_MAX, INT64_MIN in *. lia. }
  split; [exact Hlt|].
  unfold call_context.rx_kb_per_sec, udiv.
  destruct (Z.eqb_spec (call_context.milliseconds c) 0); [lia|].
  destruct (Z.eqb_spec (to_size_t (call_context.milliseconds c)) 0); [lia|].
  rewrite Z.div_small by lia. reflexivity.
Qed.

Lemma rx_kb_per_sec_zero_for_negative_elapsed_witness :
  call_context.ts_wf more_samples.pending /\
  buffer.wf (call_context._rx_buffer more_samples.pending) /\
  call_context.milliseconds more_samples.pending < 0 /\
  call_context.rx_kb_per_sec more_samples.pending = Some 0.
Proof.
  assert (Hts : call_context.ts_wf more_samples.pending) by (by vm_compute).
  assert (Hwf : buffer.wf (call_context._rx_buffer more_samples.pending))
    by (by vm_compute).
  assert (Hms : call_context.milliseconds more_samples.pending < 0)
    by reflexivity.
  split; [exact Hts|]. split; [exact Hwf|]. split; [exact Hms|].
  exact (proj2 (rx_kb_per_sec_zero_for_negative_elapsed
                  more_samples.pending Hts Hwf Hms)).
Defined.

(** X10. Taking the self-reference with [curl_start] and releasing it with
    [curl_stop] restores a context that held none exactly as it was; in
    between [curl_handle()] is the handle given, afterwards it is empty,
    whatever handle was given and however often it was taken. *)
Theorem curl_start_stop_round_trip (h : ctx_id) (c : call_context.t) :
  call_context.curl_handle (call_context.curl_start h c) = Some h /\
  call_context.curl_handle (call_context.curl_stop c) = None /\
  call_context.curl_stop (call_context.curl_start h c)
    = call_context.curl_stop c /\
  (call_context.curl_handle c = None ->
     call_context.curl_stop (call_context.curl_start h c) = c).
Proof.
  split; [done|]. split; [done|]. split; [done|].
  destruct c. unfold call_context.curl_handle. simpl. by intros ->.
Qed.

Lemma curl_start_stop_round_trip_witness :
  call_context.curl_handle more_samples.built = None /\
  call_context.curl_stop (call_context.curl_start 3%nat more_samples.built)
    = more_samples.built.
Proof.
  split; [reflexivity|].
  exact (proj2 (proj2 (proj2
    (curl_start_stop_round_trip 3%nat more_samples.built))) eq_refl).
Defined.

(** X11. A context as the constructor leaves it: no time has elapsed, no
    byte was received or written, [rx_content()] is the empty literal, the
    throughput is 0, there is no self-reference, and the result is the
    enumerator [undefined]. The member [_transport_ok] has no initialiser,
    so [ok()] is false on such a context exactly because [undefined] lies
    outside 200..299, whatever the member happens to hold. *)
Theorem constructed_context (e : call_context.env) (a : call_context.args) :
  call_context.milliseconds (call_context.init e a) = 0 /\
  call_context.microseconds (call_context.init e a) = 0 /\
  call_context.rx_content_length (call_context.init e a) = 0 /\
  call_context.tx_content_length (call_context.init e a) = 0 /\
  call_context.rx_content (call_context.init e a) = Some ptr_empty_literal /\
  call_context.rx_kb_per_sec (call_context.init e a) = Some 0 /\
  call_context.curl_handle (call_context.init e a) = None /\
  call_context.uri (call_context.init e a) = call_context.a_uri a /\
  call_context.http_result (call_context.init e a) = call_context.undefined e /\
  (call_context.ok (call_context.init e a) = true <->
     call_context.indeterminate e = true /\
     200 <= call_context.undefined e < 300) /\
  (~ 200 <= call_context.undefined e < 300 ->
     call_context.ok (call_context.init e a) = false).
Proof.
  repeat (split; [reflexivity|]).
  assert (Hiff : call_context.ok (call_context.init e a) = true <->
     call_context.indeterminate e = true /\
     200 <= call_context.undefined e < 300).
  { unfold call_context.ok. simpl.
    rewrite !andb_true_iff, Z.leb_le, Z.ltb_lt. tauto. }
  split; [exact Hiff|]. intros Hout.
  destruct (call_context.ok (call_context.init e a)); [|done].
  destruct Hout. by apply Hiff.
Qed.

Lemma constructed_context_witness :
  ~ 200 <= call_context.undefined more_samples.env_no_curl < 300 /\
  call_context.indeterminate more_samples.env_no_curl = true /\
  call_context.ok (call_context.init more_samples.env_no_curl more_samples.args1)
    = false.
Proof.
  assert (Hout : ~ 200 <= call_context.undefined more_samples.env_no_curl < 300)
    by (simpl; lia).
  split; [exact Hout|]. split; [reflexivity|].
  exact (proj2 (proj2 (proj2 (proj2 (proj2 (proj2 (proj2 (proj2 (proj2 (proj2
    (constructed_context more_samples.env_no_curl more_samples.args1)))))))))) Hout).
Defined.

(** X12. Construction followed by destruction leaves the statics as they
    were, for every value of the counter: the constructor counts one up and
    the destructor one down modulo 2^64 ([SIZE_MAX] steps to 0 and back),
    and neither leaves the lock held. The destructor of a context as built
    by [create_http_request] releases the easy handle [curl_easy_init()]
    returned, nothing if that was [NULL], and never a header list. *)
Theorem create_then_destroy (e : call_context.env) (a : call_context.args)
    (s : statics) :
  0 <= s_context_count s <= SIZE_MAX ->
  call_context.dtor_statics (snd (create_http_request e a s)) = s /\
  call_context.ctor_statics (call_context.dtor_statics s) = s /\
  0 <= call_context.connection_count (snd (create_http_request e a s))
    <= SIZE_MAX /\
  (s_context_count s < SIZE_MAX ->
     call_context.connection_count (snd (create_http_request e a s))
     = s_context_count s + 1) /\
  (s_context_count s = SIZE_MAX ->
     call_context.connection_count (snd (create_http_request e a s)) = 0) /\
  call_context.dtor_releases (fst (create_http_request e a s))
    = match call_context.curl_easy_init e with
      | Some h => [call_context.easy_cleanup h]
      | None => []
      end.
Proof.
  intros Hc. destruct s as [lk k]. unfold SIZE_MAX in *. simpl in *.
  unfold call_context.dtor_statics, call_context.ctor_statics,
    call_context.connection_count, wrap_size_t. simpl.
  assert (Hdown : ((k + 1) mod 2 ^ 64 - 1) mod 2 ^ 64 = k).
  { rewrite Zminus_mod_idemp_l. replace (k + 1 - 1) with k by lia.
    apply Z.mod_small. lia. }
  assert (Hup : ((k - 1) mod 2 ^ 64 + 1) mod 2 ^ 64 = k).
  { rewrite Zplus_mod_idemp_l. replace (k - 1 + 1) with k by lia.
    apply Z.mod_small. lia. }
  rewrite Hdown, Hup. split; [done|]. split; [done|].
  split; [pose proof (Z.mod_pos_bound (k + 1) (2 ^ 64)); lia|].
  split; [intros ?; apply Z.mod_small; lia|].
  split; [by intros ->|].
  unfold call_context.dtor_releases. simpl.
  by destruct (call_context.curl_easy_init e).
Qed.

Lemma create_then_destroy_witness :
  0 <= s_context_count more_samples.statics_full <= SIZE_MAX /\
  call_context.connection_count
    (snd (create_http_request more_samples.env_no_curl more_samples.args1
            more_samples.statics_full)) = 0 /\
  call_context.dtor_statics
    (snd (create_http_request more_samples.env_no_curl more_samples.args1
            more_samples.statics_full)) = more_samples.statics_full.
Proof.
  assert (Hc : 0 <= s_context_count more_samples.statics_full <= SIZE_MAX)
    by (by vm_compute).
  split; [exact Hc|].
  destruct (create_then_destroy more_samples.env_no_curl more_samples.args1
              more_samples.statics_full Hc) as (Hback & _ & _ & _ & Htop & _).
  split; [exact (Htop eq_refl)|exact Hback].
Defined.

(** ** Mutual exclusion and progress under the spinlock *)

Lemma spin_reachable_invariant c0 rs sched :
  0 <= c0 <= SIZE_MAX ->
  exists holder,
    spin.invariant c0 holder
      (spin.run sched (spin.start (mk_statics false c0) rs)).
Proof.
  intros Hc.
  exact (spin_run_invariant c0 None _ sched (spin_start_invariant c0 rs Hc)).
Qed.

Lemma spin_valid_pc_cases t :
  spin.at_valid_pc t ->
  spin.pc t = spin.code_of (spin.routine_of t) \/
  spin.pc t = [] \/
  (spin.in_critical_section t = true /\
   exists ins rest, spin.pc t = ins :: rest /\ ins <> spin.acquire).
Proof.
  unfold spin.at_valid_pc, spin.in_critical_section.
  destruct t as [r pc rg]. simpl. intros Hv.
  destruct r; simpl in Hv;
    repeat (destruct Hv as [Hv|Hv]; [subst pc|]); try done; simpl;
    first [ by left | by right; left
          | right; right; split; [done|]; eexists _, _; split; [done|done] ].
Qed.

Lemma spin_exec_inside ins t g :
  ins <> spin.acquire -> is_Some (spin.exec ins t g).
Proof. destruct ins; simpl; eauto. done. Qed.

Lemma spin_can_move_inside i t st :
  spin.threads st !! i = Some t ->
  spin.at_valid_pc t -> spin.in_critical_section t = true ->
  spin_progress.can_move i st.
Proof.
  intros Hi Hv Hin.
  destruct (spin_valid_pc_cases t Hv) as [Hfull|[Hnil|(_ & ins & rest & Hpc & Hne)]].
  - unfold spin.in_critical_section in Hin. rewrite Hfull in Hin.
    rewrite Nat.eqb_refl in Hin. by destruct (spin.routine_of t).
  - unfold spin.in_critical_section in Hin. by rewrite Hnil in Hin.
  - destruct (spin_exec_inside ins t (spin.globals st) Hne) as [[r g] Hex].
    exists t, ins, r. unfold spin.step. rewrite Hi, Hpc, Hex. simpl.
    split; [done|]. split; [|done].
    apply list_lookup_insert_eq. by eapply lookup_lt_Some.
Qed.

Lemma spin_can_move_outside i t st :
  spin.threads st !! i = Some t ->
  s_spinlock (spin.globals st) = false ->
  spin.at_valid_pc t -> spin.in_critical_section t = false ->
  spin.finished t = false ->
  spin_progress.can_move i st.
Proof.
  intros Hi Hfree Hv Hout Hfin.
  destruct (spin_valid_pc_cases t Hv) as [Hfull|[Hnil|(Hin & _)]].
  - exists t, spin.acquire, (spin.reg t). unfold spin.step. rewrite Hi, Hfull.
    assert (Hcode : spin.code_of (spin.routine_of t)
                    = spin.acquire :: tail (spin.code_of (spin.routine_of t)))
      by (by destruct (spin.routine_of t)).
    rewrite Hcode. simpl. rewrite Hfree. simpl.
    split; [done|]. split; [|done].
    apply list_lookup_insert_eq. by eapply lookup_lt_Some.
  - unfold spin.finished in Hfin. by rewrite Hnil in Hfin.
  - congruence.
Qed.

(** The thread that moves is inside its critical section afterwards,
    unless it has just released the lock. *)
Lemma spin_step_someone_inside c0 holder st i :
  spin.invariant c0 holder st ->
  (s_spinlock (spin.globals st) = true -> spin_progress.someone_inside st) ->
  s_spinlock (spin.globals (spin.step i st)) = true ->
  spin_progress.someone_inside (spin.step i st).
Proof.
  intros (Hlock & Hcount & Hall) Hold. unfold spin.step.
  destruct (spin.threads st !! i) as [t|] eqn:Hi; [|done].
  destruct (Hall i t Hi) as (Hv & Hcs & Hr).
  assert (Hlen : (i < length (spin.threads st))%nat) by (by eapply lookup_lt_Some).
  destruct st as [[lk cnt] ts]. destruct t as [r pc rg].
  unfold spin.at_valid_pc in Hv. simpl in *.
  destruct r; simpl in Hv;
    repeat (destruct Hv as [Hv|Hv]; [subst pc|]); try done; simpl;
    try (destruct lk; simpl; [done|]);
    try done;
    intros _; exists i; eexists;
    (split; [by apply list_lookup_insert_eq|done]).
Qed.

Lemma spin_run_someone_inside c0 sched :
  forall holder st,
    spin.invariant c0 holder st ->
    (s_spinlock (spin.globals st) = true -> spin_progress.someone_inside st) ->
    s_spinlock (spin.globals (spin.run sched st)) = true ->
    spin_progress.someone_inside (spin.run sched st).
Proof.
  induction sched as [|i sched IH]; intros holder st Hinv Hold; [done|].
  simpl. destruct (spin_step_invariant c0 holder st i Hinv) as [h' Hinv'].
  apply (IH h' _ Hinv').
  by apply (spin_step_someone_inside c0 holder).
Qed.

Lemma spin_reachable_someone_inside c0 rs sched :
  0 <= c0 <= SIZE_MAX ->
  s_spinlock (spin.globals (spin.run sched (spin.start (mk_statics false c0) rs)))
    = true ->
  spin_progress.someone_inside
    (spin.run sched (spin.start (mk_statics false c0) rs)).
Proof.
  intros Hc. apply (spin_run_someone_inside c0 sched None).
  - by apply spin_start_invariant.
  - done.
Qed.

(** X13. Mutual exclusion: however the constructors, destructors and
    [connection_count()] calls of several threads are interleaved, at most
    one of them is between its [acquire] and its [release], and the lock is
    held exactly when one is. *)
Theorem spinlock_mutual_exclusion (c0 : Z) (rs : list spin.routine)
    (sched : list nat) :
  0 <= c0 <= SIZE_MAX ->
  (forall i j ti tj,
     spin.threads (spin.run sched (spin.start (mk_statics false c0) rs)) !! i
       = Some ti ->
     spin.threads (spin.run sched (spin.start (mk_statics false c0) rs)) !! j
       = Some tj ->
     spin.in_critical_section ti = true ->
     spin.in_critical_section tj = true -> i = j) /\
  (s_spinlock (spin.globals (spin.run sched (spin.start (mk_statics false c0) rs)))
     = true <->
   spin_progress.someone_inside
     (spin.run sched (spin.start (mk_statics false c0) rs))).
Proof.
  intros Hc.
  destruct (spin_reachable_invariant c0 rs sched Hc) as (holder & Hlock & _ & Hall).
  split.
  - intros i j ti tj Hi Hj Hini Hinj.
    destruct (Hall i ti Hi) as (_ & Hci & _).
    destruct (Hall j tj Hj) as (_ & Hcj & _).
    apply Hci in Hini. apply Hcj in Hinj. congruence.
  - split; [by apply spin_reachable_someone_inside|].
    intros (k & t & Hk & Hin).
    destruct (Hall k t Hk) as (_ & Hck & _). apply Hck in Hin.
    rewrite Hlock, Hin. apply bool_decide_eq_true. by eexists.
Qed.

Lemma spinlock_mutual_exclusion_witness :
  s_spinlock
    (spin.globals (spin.run [0; 1; 0; 2]%nat
       (spin.start (mk_statics false 1) spin_progress.calls))) = true /\
  spin_progress.someone_inside
    (spin.run [0; 1; 0; 2]%nat
       (spin.start (mk_statics false 1) spin_progress.calls)).
Proof.
  split; [reflexivity|].
  apply (proj2 (spinlock_mutual_exclusion 1 spin_progress.calls [0; 1; 0; 2]%nat
                  ltac:(by vm_compute))).
  reflexivity.
Defined.

Lemma spin_progress_step c0 holder st :
  spin.invariant c0 holder st ->
  (s_spinlock (spin.globals st) = true -> spin_progress.someone_inside st) ->
  ~ spin_progress.all_finished st ->
  exists i, spin_progress.can_move i st.
Proof.
  intros (Hlock & _ & Hall) Hin Hnot.
  destruct (s_spinlock (spin.globals st)) eqn:Hlk.
  - destruct (Hin eq_refl) as (k & t & Hk & Hcs).
    exists k. destruct (Hall k t Hk) as (Hv & _ & _).
    by apply (spin_can_move_inside k t).
  - unfold spin_progress.all_finished in Hnot.
    apply not_Forall_Exists in Hnot; [|apply _].
    apply Exists_exists in Hnot as (t & Ht & Hfin).
    apply list_elem_of_lookup_1 in Ht as [j Hj].
    exists j. destruct (Hall j t Hj) as (Hv & Hcs & _).
    apply (spin_can_move_outside j t); try done.
    + destruct (spin.in_critical_section t); [|done].
      assert (holder = Some j) as -> by (by apply Hcs).
      symmetry in Hlock. apply bool_decide_eq_false in Hlock.
      destruct Hlock. by eexists.
    + simpl in Hfin. by apply not_true_is_false.
Qed.

Lemma spin_remaining_nonneg ts : 0 <= spin_progress.remaining ts.
Proof.
  unfold spin_progress.remaining. induction ts as [|t ts IH]; simpl; lia.
Qed.

Lemma spin_remaining_zero ts :
  spin_progress.remaining ts = 0 ->
  Forall (fun t => spin.finished t = true) ts.
Proof.
  unfold spin_progress.remaining. induction ts as [|t ts IH]; simpl; intros H.
  - constructor.
  - pose proof (spin_remaining_nonneg ts) as Hn.
    unfold spin_progress.remaining in Hn. constructor.
    + unfold spin.finished. destruct (spin.pc t); [done|simpl in H; lia].
    + apply IH. lia.
Qed.

Lemma spin_can_move_remaining i st :
  spin_progress.can_move i st ->
  spin_progress.remaining (spin.threads (spin.step i st))
  = spin_progress.remaining (spin.threads st) - 1.
Proof.
  intros (t & ins & r & Hi & Hstep & Hpc). revert Hstep.
  unfold spin.step. rewrite Hi, Hpc.
  destruct (spin.exec ins t (spin.globals st)) as [[r' g]|]; simpl.
  - intros _. unfold spin_progress.remaining.
    rewrite (sum_over_insert _ _ _ _ _ Hi). simpl. rewrite Hpc. simpl. lia.
  - rewrite Hi. intros [= Heq]. destruct t as [rt pct rgt]. simpl in *.
    injection Heq as Hbad _. rewrite Hpc in Hbad.
    apply (f_equal length) in Hbad. simpl in Hbad. lia.
Qed.

Lemma spin_runs_to_completion c0 (n : nat) :
  forall holder st,
    spin.invariant c0 holder st ->
    (s_spinlock (spin.globals st) = true -> spin_progress.someone_inside st) ->
    spin_progress.remaining (spin.threads st) <= Z.of_nat n ->
    exists more, spin_progress.all_finished (spin.run more st).
Proof.
  induction n as [|n IH]; intros holder st Hinv Hin Hrem.
  - exists []. simpl. apply spin_remaining_zero.
    pose proof (spin_remaining_nonneg (spin.threads st)). lia.
  - destruct (decide (spin_progress.all_finished st)) as [Hfin|Hnot].
    { by exists []. }
    destruct (spin_progress_step c0 holder st Hinv Hin Hnot) as [i Hmove].
    destruct (spin_step_invariant c0 holder st i Hinv) as [h' Hinv'].
    destruct (IH h' (spin.step i st) Hinv') as [more Hmore].
    + by apply (spin_step_someone_inside c0 holder).
    + rewrite (spin_can_move_remaining i st Hmove). lia.
    + by exists (i :: more).
Qed.

Lemma spin_run_app s1 s2 st :
  spin.run (s1 ++ s2) st = spin.run s2 (spin.run s1 st).
Proof. unfold spin.run. apply fold_left_app. Qed.

(** X14. The lock discipline cannot deadlock: in every state an
    interleaving can reach, unless all invocations have finished, some
    invocation executes an instruction when it is scheduled; so every such
    state can be run on until all invocations have finished, and then the
    counter is the start value plus the constructors minus the destructors
    (modulo 2^64). *)
Theorem spinlock_no_deadlock (c0 : Z) (rs : list spin.routine)
    (sched : list nat) :
  0 <= c0 <= SIZE_MAX ->
  (~ spin_progress.all_finished
       (spin.run sched (spin.start (mk_statics false c0) rs)) ->
   exists i,
     spin_progress.can_move i
       (spin.run sched (spin.start (mk_statics false c0) rs))) /\
  exists more,
    spin_progress.all_finished
      (spin.run (sched ++ more) (spin.start (mk_statics false c0) rs)) /\
    s_spinlock
      (spin.globals
         (spin.run (sched ++ more) (spin.start (mk_statics false c0) rs)))
      = false /\
    s_context_count
      (spin.globals
         (spin.run (sched ++ more) (spin.start (mk_statics false c0) rs)))
    = wrap_size_t (c0 + (spin.invocations spin.ctor rs
                         - spin.invocations spin.dtor rs)).
Proof.
  intros Hc.
  destruct (spin_reachable_invariant c0 rs sched Hc) as [holder Hinv].
  pose proof (spin_reachable_someone_inside c0 rs sched Hc) as Hin.
  split; [by apply (spin_progress_step c0 holder)|].
  destruct (spin_runs_to_completion c0
              (Z.to_nat (spin_progress.remaining
                 (spin.threads (spin.run sched
                    (spin.start (mk_statics false c0) rs)))))
              holder _ Hinv Hin) as [more Hmore].
  { pose proof (spin_remaining_nonneg
      (spin.threads (spin.run sched (spin.start (mk_statics false c0) rs)))).
    lia. }
  exists more. rewrite spin_run_app. split; [exact Hmore|].
  rewrite <- spin_run_app in *.
  assert (Hfin : forall t,
    t ∈ spin.threads (spin.run (sched ++ more)
                        (spin.start (mk_statics false c0) rs)) ->
    spin.finished t = true).
  { intros t Ht. unfold spin_progress.all_finished in Hmore.
    rewrite Forall_forall in Hmore. by apply Hmore. }
  split.
  - destruct (s_spinlock (spin.globals (spin.run (sched ++ more)
                (spin.start (mk_statics false c0) rs)))) eqn:Hlk; [|done].
    destruct (spin_reachable_someone_inside c0 rs (sched ++ more) Hc Hlk)
      as (k & t & Hk & Hcs).
    assert (Hf : spin.finished t = true)
      by (apply Hfin; by eapply list_elem_of_lookup_2).
    unfold spin.finished, spin.in_critical_section in *.
    by destruct (spin.pc t).
  - rewrite (spin_count_interleaved c0 rs (sched ++ more) Hc).
    rewrite (spin_total_finished _ Hfin), spin_run_routines. simpl.
    by rewrite spin_spawn_routines.
Qed.

Lemma spinlock_no_deadlock_witness :
  exists more,
    spin_progress.all_finished
      (spin.run ([0; 1; 0; 2]%nat ++ more)
         (spin.start (mk_statics false 1) spin_progress.calls)) /\
    s_context_count
      (spin.globals
         (spin.run ([0; 1; 0; 2]%nat ++ more)
            (spin.start (mk_statics false 1) spin_progress.calls))) = 2.
Proof.
  destruct (spinlock_no_deadlock 1 spin_progress.calls [0; 1; 0; 2]%nat
              ltac:(by vm_compute)) as (_ & more & Hfin & _ & Hcount).
  exists more. split; [exact Hfin|]. rewrite Hcount. reflexivity.
Defined.
